(** * Trace viewer: loading of trace logs and replay of snapshots

    A shallow embedding of [TraceViewer] (trace loading, the per-browser
    context table built by [show], the request interceptor installed by
    [_renderSnapshot], the child-frame walk of [_postprocessSnapshotFrame])
    and of [removeHash], followed by the properties of the replay engine.

    Conventions.
    - A JavaScript string is a [string]; its characters stand for code
      units below 256.
    - [Map<string, V>] is a [gmap string V], [Set<string>] a [gset string];
      arrays are lists, [push] appends at the end.
    - A function that can throw returns a [Result]; state that survives a
      throw is returned next to it. *)

From Stdlib Require Import String Ascii List DecimalString.
From stdpp Require Import base option list strings gmap.

#[local] Set Warnings "-clear-no-such-hyp".

(** ** Trace events *)

(** Modelled from the spec: the event types are declared in [./traceTypes],
    whose text is missing.  The records carry the fields
    the specification lists for each kind of event; numbers that play no
    part below (times, the device scale factor) are left out. *)

Record ContextCreatedTraceEvent := mkContextCreated {
  cc_contextId : string;
  cc_browserName : string;
  cc_isMobile : bool;
  cc_viewportSize : option (nat * nat)
}.

Record NetworkResourceTraceEvent := mkResource {
  res_contextId : string;
  res_frameId : string;
  res_url : string;
  res_contentType : string;
  res_responseHeaders : list (string * string);
  res_sha1 : string
}.

Record SnapshotRef := mkSnapshotRef {
  snap_sha1 : string;
  snap_duration : nat
}.

Record ActionTraceEvent := mkAction {
  act_contextId : string;
  act_pageId : option string;
  act_action : string;
  act_target : option string;
  act_value : option string;
  act_label : option string;
  act_snapshot : option SnapshotRef
}.

Inductive TraceEvent :=
| ContextCreated (e : ContextCreatedTraceEvent)
| ContextDestroyed (contextId : string)
| PageCreated (contextId pageId : string)
| PageDestroyed (contextId pageId : string)
| Resource (e : NetworkResourceTraceEvent)
| Action (e : ActionTraceEvent).

#[global] Instance ContextCreatedTraceEvent_eq_dec : EqDecision ContextCreatedTraceEvent.
Proof. solve_decision. Defined.
#[global] Instance NetworkResourceTraceEvent_eq_dec : EqDecision NetworkResourceTraceEvent.
Proof. solve_decision. Defined.
#[global] Instance SnapshotRef_eq_dec : EqDecision SnapshotRef.
Proof. solve_decision. Defined.
#[global] Instance ActionTraceEvent_eq_dec : EqDecision ActionTraceEvent.
Proof. solve_decision. Defined.
#[global] Instance TraceEvent_eq_dec : EqDecision TraceEvent.
Proof. solve_decision. Defined.

(** ** Snapshots *)

(** Modelled from the spec: [FrameSnapshot] and [PageSnapshot] are declared
    in [./snapshotter], whose text is missing. *)

Record ResourceOverride := mkOverride {
  ov_url : string;
  ov_sha1 : string
}.

Record FrameSnapshot := mkFrameSnapshot {
  fs_frameId : string;
  fs_url : string;
  fs_html : string;
  fs_resourceOverrides : list ResourceOverride
}.

Record PageSnapshot := mkPageSnapshot {
  frames : list FrameSnapshot
}.

#[global] Instance ResourceOverride_eq_dec : EqDecision ResourceOverride.
Proof. solve_decision. Defined.
#[global] Instance FrameSnapshot_eq_dec : EqDecision FrameSnapshot.
Proof. solve_decision. Defined.

(** ** The viewer's tables *)

Record TraceViewer := mkTraceViewer {
  _traces : list (string * list TraceEvent);
  _browserNames : gset string;
  _resourceEventsByUrl : gmap string (list NetworkResourceTraceEvent);
  _contextEventById : gmap string ContextCreatedTraceEvent
}.

Definition newTraceViewer : TraceViewer :=
  {| _traces := []; _browserNames := ∅;
     _resourceEventsByUrl := ∅; _contextEventById := ∅ |}.

Inductive Error :=
| SyntaxError   (* JSON.parse rejected a line *)
| TypeError.    (* a property was read from undefined *)

Inductive Result (A : Type) :=
| Ok (a : A)
| Throw (e : Error).
Arguments Ok {A} a.
Arguments Throw {A} e.

(** ** The resource-matching loop of the interceptor

    [matchLoop] is the [for ... of] loop over the candidates stored under
    one URL: [resource] is the loop variable of the same name, returning
    without visiting the tail is the [break]. *)

Fixpoint matchLoop (contextId frameId : string)
    (resource : option NetworkResourceTraceEvent)
    (candidates : list NetworkResourceTraceEvent)
    : option NetworkResourceTraceEvent :=
  match candidates with
  | [] => resource
  | resourceEvent :: rest =>
      if negb (bool_decide (res_contextId resourceEvent = contextId)) then
        matchLoop contextId frameId resource rest
      else if bool_decide (is_Some resource)
              && negb (bool_decide (res_frameId resourceEvent = frameId)) then
        matchLoop contextId frameId resource rest
      else if bool_decide (res_frameId resourceEvent = frameId) then
        Some resourceEvent
      else
        matchLoop contextId frameId (Some resourceEvent) rest
  end.

Definition matchCandidates (contextId frameId : string)
    (candidates : list NetworkResourceTraceEvent) :=
  matchLoop contextId frameId None candidates.

(** ** [removeHash] *)

(** Modelled from the spec: the scheme test of the platform's URL parser,
    an ASCII letter followed by letters, digits, [+], [-] or [.] up to a
    colon. *)

Definition isAlpha (c : ascii) : bool :=
  let n := nat_of_ascii c in
  ((65 <=? n) && (n <=? 90)) || ((97 <=? n) && (n <=? 122)).

Definition isSchemeChar (c : ascii) : bool :=
  let n := nat_of_ascii c in
  isAlpha c || ((48 <=? n) && (n <=? 57))
  || bool_decide (c = "+"%char) || bool_decide (c = "-"%char)
  || bool_decide (c = "."%char).

Fixpoint schemeTail (s : string) : bool :=
  match s with
  | EmptyString => false
  | String c rest =>
      if bool_decide (c = ":"%char) then true
      else if isSchemeChar c then schemeTail rest else false
  end.

Definition hasScheme (s : string) : bool :=
  match s with
  | EmptyString => false
  | String c rest => isAlpha c && schemeTail rest
  end.

(** Modelled from the spec: the input up to its first [#], and what follows
    that [#], if there is one. *)
Fixpoint beforeHash (s : string) : string :=
  match s with
  | EmptyString => EmptyString
  | String c rest =>
      if bool_decide (c = "#"%char) then EmptyString
      else String c (beforeHash rest)
  end.

Fixpoint afterHash (s : string) : option string :=
  match s with
  | EmptyString => None
  | String c rest =>
      if bool_decide (c = "#"%char) then Some rest else afterHash rest
  end.

(** Modelled from the spec: the platform's [URL] class is not code of this
    repository.  Only what [removeHash] needs of it is modelled, for inputs
    that are already in serialised form (what [route.request().url()] and
    the recorder produce): the constructor throws unless the input starts
    with a scheme and a colon, the fragment is what follows the first [#],
    and setting [hash] to the empty string drops the fragment together with
    its [#].  On other inputs the platform does more: it throws on some
    strings that start with a scheme, and it writes the others anew
    (lower-case scheme and host, a path that is never empty, escapes), so
    that what is proved of the value of [removeHash] is proved for
    serialised URLs. *)
Record URL := mkURL {
  url_withoutFragment : string;
  url_fragment : option string
}.

Definition URL_new (s : string) : option URL :=
  if hasScheme s
  then Some {| url_withoutFragment := beforeHash s; url_fragment := afterHash s |}
  else None.

Definition URL_set_hash (u : URL) (value : string) : URL :=
  match value with
  | EmptyString => {| url_withoutFragment := url_withoutFragment u; url_fragment := None |}
  | String c rest =>
      {| url_withoutFragment := url_withoutFragment u;
         url_fragment := Some (if bool_decide (c = "#"%char) then rest else value) |}
  end.

Definition URL_toString (u : URL) : string :=
  match url_fragment u with
  | None => url_withoutFragment u
  | Some f => url_withoutFragment u +:+ "#" +:+ f
  end.

(** [removeHash] itself: the [catch] returns the argument unchanged. *)
Definition removeHash (url : string) : string :=
  match URL_new url with
  | Some u => URL_toString (URL_set_hash u "")
  | None => url
  end.

(** ** [load]

    The file is taken as read: [load] starts from its contents.  A line
    that is well-formed JSON is taken to decode to a [TraceEvent], as the
    source's types have it. *)

(** [String.prototype.split] on a line feed. *)
Fixpoint splitLines (s : string) : list string :=
  match s with
  | EmptyString => [EmptyString]
  | String c rest =>
      if bool_decide (c = "010"%char) then EmptyString :: splitLines rest
      else match splitLines rest with
           | [] => [String c EmptyString]
           | l :: ls => String c l :: ls
           end
  end.

Definition isWhiteSpace (c : ascii) : bool :=
  let n := nat_of_ascii c in
  ((9 <=? n) && (n <=? 13)) || (n =? 32) || (n =? 160).

Fixpoint trimStart (s : string) : string :=
  match s with
  | EmptyString => EmptyString
  | String c rest => if isWhiteSpace c then trimStart rest else s
  end.

Definition trim (s : string) : string :=
  String.rev (trimStart (String.rev (trimStart s))).

Definition nonEmpty (s : string) : bool := negb (bool_decide (s = "")).

Definition traceLines (traceContent : string) : list string :=
  List.filter nonEmpty (List.map trim (splitLines traceContent)).

(** One iteration of the [for (const event of events)] loop of [load]. *)
Definition indexEvent (v : TraceViewer) (event : TraceEvent) : TraceViewer :=
  match event with
  | ContextCreated e =>
      {| _traces := _traces v;
         _browserNames := {[ cc_browserName e ]} ∪ _browserNames v;
         _resourceEventsByUrl := _resourceEventsByUrl v;
         _contextEventById := <[ cc_contextId e := e ]> (_contextEventById v) |}
  | Resource e =>
      let responseEvents := default [] (_resourceEventsByUrl v !! res_url e) in
      {| _traces := _traces v;
         _browserNames := _browserNames v;
         _resourceEventsByUrl :=
           <[ res_url e := responseEvents ++ [e] ]> (_resourceEventsByUrl v);
         _contextEventById := _contextEventById v |}
  | _ => v
  end.

Definition indexEvents (v : TraceViewer) (events : list TraceEvent) : TraceViewer :=
  foldl indexEvent v events.

Definition pushTrace (v : TraceViewer) (traceFile : string) (events : list TraceEvent)
    : TraceViewer :=
  {| _traces := _traces v ++ [(traceFile, events)];
     _browserNames := _browserNames v;
     _resourceEventsByUrl := _resourceEventsByUrl v;
     _contextEventById := _contextEventById v |}.

Section Loading.
(** [JSON.parse] on one line, cast to [TraceEvent] as the source's types
    do; [None] when it throws. *)
Variable JSON_parse : string -> option TraceEvent.

(** [lines.map(line => JSON.parse(line))]: the first line that does not
    parse throws out of the whole map. *)
Fixpoint parseLines (ls : list string) : Result (list TraceEvent) :=
  match ls with
  | [] => Ok []
  | line :: rest =>
      match JSON_parse line with
      | None => Throw SyntaxError
      | Some event =>
          match parseLines rest with
          | Ok events => Ok (event :: events)
          | Throw e => Throw e
          end
      end
  end.

(** [load], from the contents of the trace file on: the viewer after the
    call and whether the call returned or threw. *)
Definition load (v : TraceViewer) (traceFile traceContent : string)
    : TraceViewer * Result unit :=
  match parseLines (traceLines traceContent) with
  | Throw e => (v, Throw e)
  | Ok events => (pushTrace (indexEvents v events) traceFile events, Ok tt)
  end.
End Loading.

(** ** The context table built by [show]

    [contextData] is a plain object literal used as a map.  Reading a key
    it does not own falls through to [Object.prototype]; for the names
    below that read is truthy, so no entry is created, and the value has no
    [actions], so that [data.actions.push] throws. *)

Record ContextData := mkContextData {
  label : string;
  actions : list ActionTraceEvent
}.

Definition Object_prototype_keys : list string :=
  [ "constructor"; "__proto__"; "hasOwnProperty"; "isPrototypeOf";
    "propertyIsEnumerable"; "toLocaleString"; "toString"; "valueOf";
    "__defineGetter__"; "__defineSetter__"; "__lookupGetter__";
    "__lookupSetter__" ].

Definition inheritedKey (k : string) : bool :=
  bool_decide (k ∈ Object_prototype_keys).

Definition numberToString (n : nat) : string :=
  NilEmpty.string_of_uint (Nat.to_uint n).

(** The loop state of one trace: the local counter [contextId] and the
    table [contextData] shared by all traces. *)
Definition ShowState : Type := nat * gmap string ContextData.

(** One iteration of [for (const event of trace.events)] in [show]. *)
Definition showEvent (v : TraceViewer) (browserName traceFile : string)
    (st : ShowState) (event : TraceEvent) : Result ShowState :=
  match event with
  | Action a =>
      match _contextEventById v !! act_contextId a with
      | None => Throw TypeError
      | Some contextEvent =>
          if negb (bool_decide (cc_browserName contextEvent = browserName)) then Ok st
          else
            let key := cc_contextId contextEvent in
            match st.2 !! key with
            | Some data =>
                Ok (st.1, <[ key := {| label := label data;
                                       actions := actions data ++ [a] |} ]> st.2)
            | None =>
                if inheritedKey key then Throw TypeError
                else
                  let contextId := S st.1 in
                  Ok (contextId,
                      <[ key := {| label := traceFile +:+ " :: context"
                                              +:+ numberToString contextId;
                                   actions := [a] |} ]> st.2)
            end
      end
  | _ => Ok st
  end.

Fixpoint showEvents (v : TraceViewer) (browserName traceFile : string)
    (st : ShowState) (events : list TraceEvent) : Result ShowState :=
  match events with
  | [] => Ok st
  | event :: rest =>
      match showEvent v browserName traceFile st event with
      | Ok st' => showEvents v browserName traceFile st' rest
      | Throw e => Throw e
      end
  end.

Fixpoint showTraces (v : TraceViewer) (browserName : string)
    (contextData : gmap string ContextData)
    (traces : list (string * list TraceEvent))
    : Result (gmap string ContextData) :=
  match traces with
  | [] => Ok contextData
  | (traceFile, events) :: rest =>
      match showEvents v browserName traceFile (0, contextData) events with
      | Ok st => showTraces v browserName st.2 rest
      | Throw e => Throw e
      end
  end.

(** The table [show] hands to the page, or the exception that ends
    [show] before that. *)
Definition show_contextData (v : TraceViewer) (browserName : string)
    : Result (gmap string ContextData) :=
  showTraces v browserName ∅ (_traces v).

(** An event is orphaned when no loaded trace created its context. *)
Definition orphaned (v : TraceViewer) (contextId : string) : Prop :=
  _contextEventById v !! contextId = None.

(** ** The request interceptor of [_renderSnapshot] *)

Record Request := mkRequest {
  req_url : string;        (* route.request().url() *)
  req_frame_url : string   (* route.request().frame().url() *)
}.

Record Response := mkResponse {
  contentType : string;
  body : string;
  headers : option (gmap string string)
}.

Inductive RouteOutcome :=
| Fulfill (r : Response)
| Abort.

(** What the interceptor consulted on the way to its outcome. *)
Inductive Consulted :=
| FrameTable        (* frameBySrc *)
| Matcher           (* the loop over _resourceEventsByUrl *)
| Overrides         (* frameSnapshot.resourceOverrides *)
| BlobStore.        (* _readResource *)

#[global] Instance Response_eq_dec : EqDecision Response.
Proof. solve_decision. Defined.
#[global] Instance RouteOutcome_eq_dec : EqDecision RouteOutcome.
Proof. solve_decision. Defined.
#[global] Instance Consulted_eq_dec : EqDecision Consulted.
Proof. solve_decision. Defined.

(** [frameBySrc]: a later frame with the same URL replaces an earlier one. *)
Definition frameBySrc (snapshot : PageSnapshot) : gmap string FrameSnapshot :=
  foldl (fun m frameSnapshot => <[ fs_url frameSnapshot := frameSnapshot ]> m)
        ∅ (frames snapshot).

(** [headers[name] = value] on an object literal: assigning a string to
    [__proto__] goes to the inherited setter, which ignores it. *)
Definition setHeader (headers : gmap string string) (nv : string * string)
    : gmap string string :=
  if bool_decide (nv.1 = "__proto__") then headers else <[ nv.1 := nv.2 ]> headers.

Definition buildHeaders (responseHeaders : list (string * string))
    : gmap string string :=
  setHeader (foldl setHeader ∅ responseHeaders) ("Access-Control-Allow-Origin", "*").

(** [path.join] of the storage directory and a file name that needs no
    normalisation. *)
Definition path_join (dir name : string) : string := dir +:+ "/" +:+ name.

(** [overrideSha1 || event.sha1]: an empty string is falsy. *)
Definition orElse (overrideSha1 : option string) (sha1 : string) : string :=
  match overrideSha1 with
  | Some s => if bool_decide (s = "") then sha1 else s
  | None => sha1
  end.

Record ResourceData := mkResourceData {
  rd_contentType : string;
  rd_body : string;
  rd_headers : list (string * string)
}.

(** A route whose handler has settled it, as pushed on [intercepted]. *)
Record Settled := mkSettled {
  st_request : Request;
  st_outcome : RouteOutcome
}.

(** The state one [_renderSnapshot] call creates for its interceptor:
    the seen-set, what was written to the console, the join list. *)
Record ReplayState := mkReplayState {
  unknownUrls : gset string;
  console : list string;
  intercepted : list Settled
}.

Definition initialReplayState : ReplayState :=
  {| unknownUrls := ∅; console := []; intercepted := [] |}.

Definition unknownMessage (url : string) : string :=
  "Request to unknown url: " +:+ url.

(** The closure [unknown]. *)
Definition unknown (st : ReplayState) (route : Request) : ReplayState :=
  let url := req_url route in
  let st1 :=
    if bool_decide (url ∈ unknownUrls st) then st
    else {| unknownUrls := {[ url ]} ∪ unknownUrls st;
            console := console st ++ [unknownMessage url];
            intercepted := intercepted st |} in
  {| unknownUrls := unknownUrls st1;
     console := console st1;
     intercepted := intercepted st1 ++ [ {| st_request := route; st_outcome := Abort |} ] |}.

Definition fulfill (st : ReplayState) (route : Request) (r : Response) : ReplayState :=
  {| unknownUrls := unknownUrls st;
     console := console st;
     intercepted := intercepted st ++ [ {| st_request := route; st_outcome := Fulfill r |} ] |}.

(** What the handler decides for a route: one of its two [route.fulfill]
    calls, or [unknown(route)]. *)
Inductive Verdict :=
| ServeFrame (frameSnapshot : FrameSnapshot)
| ServeResource (resourceData : ResourceData)
| Unknown.

Section Replay.
(** [fsReadFileAsync] on a path: [None] when the read is rejected. *)
Variable fsReadFileAsync : string -> option string.
Variable _traceStorageDir : string.

Definition _readResource (event : NetworkResourceTraceEvent)
    (overrideSha1 : option string) : option ResourceData :=
  match fsReadFileAsync (path_join _traceStorageDir (orElse overrideSha1 (res_sha1 event))) with
  | Some content =>
      Some {| rd_contentType := res_contentType event;
              rd_body := content;
              rd_headers := res_responseHeaders event |}
  | None => None
  end.

Variable v : TraceViewer.
Variable snapshot : PageSnapshot.
Variable contextId : string.

(** The candidates the loop runs over and its result. *)
Definition candidatesFor (url : string) : list NetworkResourceTraceEvent :=
  default [] (_resourceEventsByUrl v !! removeHash url).

Definition matchResource (url frameId : string) : option NetworkResourceTraceEvent :=
  matchCandidates contextId frameId (candidatesFor url).

(** The handler up to its single effect: what it decides for the route,
    with the tables it consulted on the way. *)
Definition resolve (request : Request) : Verdict * list Consulted :=
  let url := req_url request in
  match frameBySrc snapshot !! url with
  | Some frameSnapshot => (ServeFrame frameSnapshot, [FrameTable])
  | None =>
      let frameSrc := req_frame_url request in
      match frameBySrc snapshot !! frameSrc with
      | None => (Unknown, [FrameTable])
      | Some frameSnapshot =>
          match matchResource url (fs_frameId frameSnapshot) with
          | None => (Unknown, [FrameTable; Matcher])
          | Some resource =>
              let resourceOverride :=
                List.find (fun o => bool_decide (ov_url o = url))
                          (fs_resourceOverrides frameSnapshot) in
              let overrideSha1 := ov_sha1 <$> resourceOverride in
              match _readResource resource overrideSha1 with
              | None => (Unknown, [FrameTable; Matcher; Overrides; BlobStore])
              | Some resourceData =>
                  (ServeResource resourceData,
                   [FrameTable; Matcher; Overrides; BlobStore])
              end
          end
      end
  end.

(** The handler passed to [page.route]: the effect of one intercepted
    request on the replay state.  The tables read before the handler's
    only [await] are never written during a replay, so a handler acts as
    one step taken when it settles its route. *)
Definition routeHandler (st : ReplayState) (route : Request) : ReplayState :=
  match (resolve route).1 with
  | ServeFrame frameSnapshot =>
      fulfill st route {| contentType := "text/html";
                          body := fs_html frameSnapshot;
                          headers := None |}
  | ServeResource resourceData =>
      fulfill st route {| contentType := rd_contentType resourceData;
                          body := rd_body resourceData;
                          headers := Some (buildHeaders (rd_headers resourceData)) |}
  | Unknown => unknown st route
  end.

(** A replay: the routes in the order their handlers settle them. *)
Definition replay (routes : list Request) : ReplayState :=
  foldl routeHandler initialReplayState routes.
End Replay.

(** ** [_postprocessSnapshotFrame] *)

(** A live frame of the page with the frames below it. *)
#[local] Set Warnings "-register-all".
Inductive Frame := mkFrame {
  frame_url : string;
  childFrames : list Frame
}.

Definition endsWith (s searchString : string) : bool :=
  bool_decide (String.list_ascii_of_string searchString
                 `suffix_of` String.list_ascii_of_string s).

(** What the walk does, in order; every awaited load is taken to finish. *)
Inductive WalkEvent :=
| WaitForLoadState (url : string)
| Recurse (childData : FrameSnapshot) (url : string).

Fixpoint _postprocessSnapshotFrame (snapshot : PageSnapshot)
    (frameSnapshot : FrameSnapshot) (frame : Frame) {struct frame} : list WalkEvent :=
  flat_map
    (fun childFrame =>
       let url := frame_url childFrame in
       WaitForLoadState url ::
       flat_map
         (fun childData =>
            if endsWith url (fs_url childData)
            then Recurse childData url
                 :: _postprocessSnapshotFrame snapshot childData childFrame
            else [])
         (frames snapshot))
    (childFrames frame).

(** The snapshot frames the walk recurses into for one live child. *)
Definition recursedInto (snapshot : PageSnapshot) (url : string) : list FrameSnapshot :=
  List.filter (fun childData => endsWith url (fs_url childData)) (frames snapshot).

(** The resource events of a list of events recorded under one URL, in
    order. *)
Definition resourcesAt (url : string) (events : list TraceEvent)
    : list NetworkResourceTraceEvent :=
  flat_map (fun event =>
              match event with
              | Resource e => if bool_decide (res_url e = url) then [e] else []
              | _ => []
              end) events.

(** The frame a URL stands for in [frameBySrc]: the last frame of the
    snapshot recorded with that URL. *)
Definition framesWithUrl (snapshot : PageSnapshot) (url : string) : list FrameSnapshot :=
  List.filter (fun f => bool_decide (fs_url f = url)) (frames snapshot).

Definition lastFrameWithUrl (snapshot : PageSnapshot) (url : string)
    : option FrameSnapshot :=
  last (framesWithUrl snapshot url).

(** ** Reading a replay

    What a verdict makes of a route, the URLs of the routes handed to
    [unknown], and the first occurrences of a list of URLs not already in
    a seen-set, in order. *)

Definition outcomeOf (d : Verdict) : RouteOutcome :=
  match d with
  | ServeFrame frameSnapshot =>
      Fulfill {| contentType := "text/html";
                 body := fs_html frameSnapshot;
                 headers := None |}
  | ServeResource resourceData =>
      Fulfill {| contentType := rd_contentType resourceData;
                 body := rd_body resourceData;
                 headers := Some (buildHeaders (rd_headers resourceData)) |}
  | Unknown => Abort
  end.

Definition isUnknown (d : Verdict) : bool :=
  match d with
  | Unknown => true
  | _ => false
  end.

Fixpoint firstOccurrences (seen : gset string) (urls : list string) : list string :=
  match urls with
  | [] => []
  | url :: rest =>
      if bool_decide (url ∈ seen) then firstOccurrences seen rest
      else url :: firstOccurrences ({[ url ]} ∪ seen) rest
  end.

Section ReplayReading.
Variable fsReadFileAsync : string -> option string.
Variable _traceStorageDir : string.
Variable v : TraceViewer.
Variable snapshot : PageSnapshot.
Variable contextId : string.

Definition unmatched (route : Request) : bool :=
  isUnknown (resolve fsReadFileAsync _traceStorageDir v snapshot contextId route).1.

Definition settle (route : Request) : Settled :=
  {| st_request := route;
     st_outcome :=
       outcomeOf (resolve fsReadFileAsync _traceStorageDir v snapshot contextId route).1 |}.

Definition unmatchedUrls (routes : list Request) : list string :=
  List.map req_url (List.filter unmatched routes).
End ReplayReading.

(** ** The matcher as the specification words it

    Keep the candidates of the replayed context, in stored order; the
    first of them whose frame is the preferred one wins, and without such
    a candidate the first of them does. *)

Definition sameContext (contextId : string) (l : list NetworkResourceTraceEvent) :=
  List.filter (fun r => bool_decide (res_contextId r = contextId)) l.

Definition firstOfFrame (frameId : string) (l : list NetworkResourceTraceEvent) :=
  List.find (fun r => bool_decide (res_frameId r = frameId)) l.

Definition match_spec (contextId preferredFrameId : string)
    (l : list NetworkResourceTraceEvent) : option NetworkResourceTraceEvent :=
  match firstOfFrame preferredFrameId (sameContext contextId l) with
  | Some r => Some r
  | None => head (sameContext contextId l)
  end.

(** ** Sample data for the examples below *)

Module Samples.
Definition resA : NetworkResourceTraceEvent :=
  {| res_contextId := "c1"; res_frameId := "fA"; res_url := "https://a/app.js";
     res_contentType := "text/javascript"; res_responseHeaders := [];
     res_sha1 := "sha-a" |}.
Definition resB : NetworkResourceTraceEvent :=
  {| res_contextId := "c1"; res_frameId := "fB"; res_url := "https://a/app.js";
     res_contentType := "text/javascript"; res_responseHeaders := [];
     res_sha1 := "sha-b" |}.
Definition resF : NetworkResourceTraceEvent :=
  {| res_contextId := "c1"; res_frameId := "F"; res_url := "https://a/app.js";
     res_contentType := "text/javascript"; res_responseHeaders := [];
     res_sha1 := "sha-f" |}.
Definition resOther : NetworkResourceTraceEvent :=
  {| res_contextId := "c2"; res_frameId := "F"; res_url := "https://a/app.js";
     res_contentType := "text/javascript"; res_responseHeaders := [];
     res_sha1 := "sha-o" |}.

(** A viewer that loaded the three same-context resources, in this order. *)
Definition viewer3 : TraceViewer :=
  indexEvents newTraceViewer [Resource resA; Resource resB; Resource resF].

(** A viewer that loaded one resource of context c2 and one of c1. *)
Definition viewer2 : TraceViewer :=
  indexEvents newTraceViewer [Resource resOther; Resource resA].

(** Lines of a trace file and the events they decode to. *)
Definition dq : string := String (ascii_of_nat 34) EmptyString.
Definition field (k val : string) : string :=
  dq +:+ k +:+ dq +:+ ":" +:+ dq +:+ val +:+ dq.
Definition object (fields : list string) : string :=
  "{" +:+ String.concat "," fields +:+ "}".

Definition resFrag : NetworkResourceTraceEvent :=
  {| res_contextId := "c1"; res_frameId := "f1"; res_url := "https://x/y#frag1";
     res_contentType := "text/css"; res_responseHeaders := [];
     res_sha1 := "sha-y" |}.
Definition ctx1 : ContextCreatedTraceEvent :=
  {| cc_contextId := "c1"; cc_browserName := "chromium"; cc_isMobile := false;
     cc_viewportSize := None |}.
Definition orphanAction : ActionTraceEvent :=
  {| act_contextId := "c9"; act_pageId := None; act_action := "click";
     act_target := None; act_value := None; act_label := None;
     act_snapshot := None |}.

Definition emptyArrayField (k : string) : string := dq +:+ k +:+ dq +:+ ":[]".
Definition line_resFrag : string :=
  object [field "type" "resource"; field "contextId" "c1"; field "frameId" "f1";
          field "url" "https://x/y#frag1"; field "contentType" "text/css";
          emptyArrayField "responseHeaders"; field "sha1" "sha-y"].
Definition resPlain : NetworkResourceTraceEvent :=
{| res_contextId := "c1"; res_frameId := "f1"; res_url := "https://x/y";
   res_contentType := "text/css"; res_responseHeaders := [];
   res_sha1 := "sha-y" |}.
Definition line_resPlain : string :=
object [field "type" "resource"; field "contextId" "c1"; field "frameId" "f1";
        field "url" "https://x/y"; field "contentType" "text/css";
        emptyArrayField "responseHeaders"; field "sha1" "sha-y"].
Definition line_ctx1 : string :=
  object [field "type" "context-created"; field "browserName" "chromium";
          field "contextId" "c1"].
Definition line_orphanAction : string :=
  object [field "type" "action"; field "contextId" "c9"; field "action" "click"].
Definition line_malformed : string := "{" +:+ dq +:+ "type" +:+ dq +:+ ":".

(** A decoder that knows the lines above and rejects every other line. *)
Definition sample_parse (line : string) : option TraceEvent :=
  snd <$> List.find (fun p => bool_decide (p.1 = line))
            [ (line_resFrag, Resource resFrag);
            (line_resPlain, Resource resPlain);
              (line_ctx1, ContextCreated ctx1);
              (line_orphanAction, Action orphanAction) ].

(** A page that frames itself: root and child recorded with one URL. *)
Definition rootFrame : FrameSnapshot :=
  {| fs_frameId := "F"; fs_url := "https://a/"; fs_html := "<html>root</html>";
     fs_resourceOverrides := [ {| ov_url := "https://a/style.css";
                                  ov_sha1 := "sha-ov" |} ] |}.
Definition childFrame : FrameSnapshot :=
  {| fs_frameId := "fB"; fs_url := "https://a/"; fs_html := "<html>child</html>";
     fs_resourceOverrides := [] |}.
Definition blankA : FrameSnapshot :=
  {| fs_frameId := "fA"; fs_url := "about:blank"; fs_html := "<html>A</html>";
     fs_resourceOverrides := [] |}.
Definition blankB : FrameSnapshot :=
  {| fs_frameId := "fB"; fs_url := "about:blank"; fs_html := "<html>B</html>";
     fs_resourceOverrides := [] |}.

Definition snapshotRootOnly : PageSnapshot := {| frames := [rootFrame] |}.
Definition snapshotSelfFramed : PageSnapshot := {| frames := [rootFrame; childFrame] |}.
Definition snapshotBlanks : PageSnapshot := {| frames := [rootFrame; blankA; blankB] |}.

(** A blob store holding the override's content and the three scripts. *)
Definition storage (path : string) : option string :=
  if bool_decide (path = "storage/sha-ov") then Some "body { color: red }"
  else if bool_decide (path = "storage/sha-a") then Some "a()"
  else if bool_decide (path = "storage/sha-b") then Some "b()"
  else if bool_decide (path = "storage/sha-f") then Some "f()"
  else if bool_decide (path = "storage/sha-css") then Some "body { }"
  else None.

Definition resCss : NetworkResourceTraceEvent :=
  {| res_contextId := "c1"; res_frameId := "F"; res_url := "https://a/style.css";
     res_contentType := "text/css";
     res_responseHeaders := [("Cache-Control", "no-cache")];
     res_sha1 := "sha-css" |}.
Definition resRootUrl : NetworkResourceTraceEvent :=
  {| res_contextId := "c1"; res_frameId := "F"; res_url := "https://a/";
     res_contentType := "text/plain"; res_responseHeaders := [];
     res_sha1 := "sha-a" |}.

(** A viewer that loaded the stylesheet and a resource under the root's URL. *)
Definition viewerCss : TraceViewer :=
  indexEvents newTraceViewer [Resource resCss; Resource resRootUrl].

Definition requestCss : Request :=
  {| req_url := "https://a/style.css"; req_frame_url := "https://a/" |}.
Definition requestRoot : Request :=
  {| req_url := "https://a/"; req_frame_url := "https://a/" |}.
Definition requestApp : Request :=
  {| req_url := "https://a/app.js"; req_frame_url := "https://a/" |}.
Definition requestMissing : Request :=
  {| req_url := "https://a/missing.png"; req_frame_url := "https://a/" |}.

(** A live page whose main frame has one child at about:blank. *)
Definition livePage : Frame :=
  {| frame_url := "https://a/";
     childFrames := [ {| frame_url := "about:blank"; childFrames := [] |} ] |}.

Definition newline : string := String (ascii_of_nat 10) EmptyString.

(** Trace files: a resource recorded with a fragment; one recorded
    without; a context and an action of a context never created; a
    context and a line cut short. *)
Definition trace_frag : string := line_resFrag +:+ newline.
Definition trace_plain : string := line_resPlain +:+ newline.
Definition trace_orphan : string :=
  line_ctx1 +:+ newline +:+ line_orphanAction +:+ newline.
Definition trace_malformed : string :=
  line_ctx1 +:+ newline +:+ line_malformed +:+ newline.
End Samples.

(** ** The loading loop of [showTraceViewer]

    The files are taken as read: each trace file comes with its contents.
    A [load] that throws ends the loop, and [showTraceViewer] with it. *)

Section LoadingAll.
Variable JSON_parse : string -> option TraceEvent.

Fixpoint showTraceViewer_load (traceViewer : TraceViewer)
    (traceFiles : list (string * string)) : TraceViewer * Result unit :=
  match traceFiles with
  | [] => (traceViewer, Ok tt)
  | (traceFile, traceContent) :: rest =>
      match load JSON_parse traceViewer traceFile traceContent with
      | (traceViewer', Ok _) => showTraceViewer_load traceViewer' rest
      | (traceViewer', Throw e) => (traceViewer', Throw e)
      end
  end.
End LoadingAll.

(** ** Reading the tables of a viewer *)

(** The context-created events of a list of events for one contextId, and
    the browser names of all of them, in order. *)
Definition contextsAt (contextId : string) (events : list TraceEvent)
    : list ContextCreatedTraceEvent :=
  flat_map (fun event =>
              match event with
              | ContextCreated e =>
                  if bool_decide (cc_contextId e = contextId) then [e] else []
              | _ => []
              end) events.

Definition browsersOf (events : list TraceEvent) : list string :=
  flat_map (fun event =>
              match event with
              | ContextCreated e => [cc_browserName e]
              | _ => []
              end) events.

(** Every table is keyed by what its entries say, no URL is stored with an
    empty list, and every context's browser is among the browser names. *)
Definition wellKeyed (v : TraceViewer) : Prop :=
  (forall id e, _contextEventById v !! id = Some e ->
                cc_contextId e = id /\ cc_browserName e ∈ _browserNames v)
  /\ (forall url l, _resourceEventsByUrl v !! url = Some l ->
                    l <> [] /\ Forall (fun r => res_url r = url) l).

(** All events of the loaded traces, in the order [show] runs over them. *)
Definition allEvents (v : TraceViewer) : list TraceEvent :=
  flat_map snd (_traces v).

(** The key under which [show] lists an action for a browser, when it
    lists it. *)
Definition actionKey (v : TraceViewer) (browserName : string)
    (a : ActionTraceEvent) : option string :=
  match _contextEventById v !! act_contextId a with
  | Some contextEvent =>
      if bool_decide (cc_browserName contextEvent = browserName)
      then Some (cc_contextId contextEvent) else None
  | None => None
  end.

(** The actions of a list of events that [show] lists under one key. *)
Definition listedActions (v : TraceViewer) (browserName key : string)
    (events : list TraceEvent) : list ActionTraceEvent :=
  flat_map (fun event =>
              match event with
              | Action a =>
                  if bool_decide (actionKey v browserName a = Some key) then [a] else []
              | _ => []
              end) events.

(** The keys of the listed actions of a list of events, in order. *)
Definition listedKeys (v : TraceViewer) (browserName : string)
    (events : list TraceEvent) : list string :=
  flat_map (fun event =>
              match event with
              | Action a => option_list (actionKey v browserName a)
              | _ => []
              end) events.

(** The events on which the loop of [show] throws: an action of a context
    never created, and an action listed under a key that an object
    literal inherits. *)
Definition throwsOn (v : TraceViewer) (browserName : string) (event : TraceEvent) : bool :=
  match event with
  | Action a =>
      match _contextEventById v !! act_contextId a with
      | None => true
      | Some contextEvent =>
          bool_decide (cc_browserName contextEvent = browserName)
          && inheritedKey (cc_contextId contextEvent)
      end
  | _ => false
  end.

(** ** Serialised URLs of a plain form

    URLs that the platform's parser accepts and writes back unchanged:
    http or https, a host of lower-case letter labels separated by single
    dots, and a path that starts with a slash and whose segments hold
    letters, digits, [_], [-] and [.] only and are neither [.] nor [..];
    no port, no query, no fragment. *)

Fixpoint afterPrefix (prefix s : string) : option string :=
  match prefix, s with
  | EmptyString, _ => Some s
  | String p prefix', String c s' =>
      if bool_decide (p = c) then afterPrefix prefix' s' else None
  | String _ _, EmptyString => None
  end.

Definition isLower (c : ascii) : bool :=
  let n := nat_of_ascii c in (97 <=? n) && (n <=? 122).

Definition isSegmentChar (c : ascii) : bool :=
  let n := nat_of_ascii c in
  isAlpha c || ((48 <=? n) && (n <=? 57))
  || bool_decide (c = "_"%char) || bool_decide (c = "-"%char)
  || bool_decide (c = "."%char).

(** The host up to the slash that ends it; what follows that slash. *)
Fixpoint afterPlainHost (labelOpen : bool) (s : string) : option string :=
  match s with
  | EmptyString => None
  | String c rest =>
      if isLower c then afterPlainHost false rest
      else if labelOpen then None
      else if bool_decide (c = "."%char) then afterPlainHost true rest
      else if bool_decide (c = "/"%char) then Some rest
      else None
  end.

Definition isDotSegment (segment : string) : bool :=
  bool_decide (segment = ".") || bool_decide (segment = "..").

(** The path after its first slash, [segment] being the segment read so
    far. *)
Fixpoint plainPath (segment : string) (s : string) : bool :=
  match s with
  | EmptyString => negb (isDotSegment segment)
  | String c rest =>
      if bool_decide (c = "/"%char)
      then negb (isDotSegment segment) && plainPath "" rest
      else if isSegmentChar c then plainPath (segment +:+ String c "") rest
      else false
  end.

Definition plainHttpUrl (s : string) : bool :=
  match (match afterPrefix "https://" s with
         | Some rest => Some rest
         | None => afterPrefix "http://" s
         end) with
  | Some rest =>
      match afterPlainHost true rest with
      | Some path => plainPath "" path
      | None => false
      end
  | None => false
  end.

(** What the loop of [show] keeps true of its table: no inherited key is
    an entry, and no entry is without actions. *)
Definition tableOk (table : gmap string ContextData) : Prop :=
  (forall k, inheritedKey k = true -> table !! k = None)
  /\ (forall k d, table !! k = Some d -> actions d <> []).

(** The actions listed under a key of the table, none when it has no
    such entry. *)
Definition actionsAt (table : gmap string ContextData) (k : string)
    : list ActionTraceEvent :=
  default [] (actions <$> table !! k).

(** ** [_ensureContext]

    A browser is what [newContext] has created on it so far; a context is
    known by its browser, its rank there and the options it was created
    with.  The options are those read off the context event; the device
    scale factor is left out with the event's.  Calls do not overlap: the
    cache is read and written within one call. *)

Record BrowserContextOptions := mkOptions {
  isMobile : bool;
  viewport : option (nat * nat)
}.

Record BrowserContext := mkBrowserContext {
  bc_browser : string;
  bc_rank : nat;
  bc_options : BrowserContextOptions
}.

Record Browser := mkBrowser {
  browser_name : string;
  browser_contexts : list BrowserContext
}.

#[global] Instance BrowserContextOptions_eq_dec : EqDecision BrowserContextOptions.
Proof. solve_decision. Defined.
#[global] Instance BrowserContext_eq_dec : EqDecision BrowserContext.
Proof. solve_decision. Defined.

Definition newContext (browser : Browser) (options : BrowserContextOptions)
    : BrowserContext * Browser :=
  let context := {| bc_browser := browser_name browser;
                    bc_rank := length (browser_contexts browser);
                    bc_options := options |} in
  (context, {| browser_name := browser_name browser;
               browser_contexts := browser_contexts browser ++ [context] |}).

(** [_ensureContext]: the cache [_contextById] and the browser after the
    call, and the context returned or the exception thrown. *)
Definition _ensureContext (v : TraceViewer)
    (_contextById : gmap string BrowserContext) (browser : Browser)
    (contextId : string)
    : gmap string BrowserContext * Browser * Result BrowserContext :=
  match _contextById !! contextId with
  | Some context => (_contextById, browser, Ok context)
  | None =>
      match _contextEventById v !! contextId with
      | None => (_contextById, browser, Throw TypeError)
      | Some event =>
          let created :=
            newContext browser {| isMobile := cc_isMobile event;
                                  viewport := cc_viewportSize event |} in
          (<[ contextId := created.1 ]> _contextById, created.2, Ok created.1)
      end
  end.

(** A run of calls on one browser, one after the other.  A call that
    throws ends its own replay only, and the run goes on. *)
Definition ensureContexts (v : TraceViewer)
    (_contextById : gmap string BrowserContext) (browser : Browser)
    (contextIds : list string) : gmap string BrowserContext * Browser :=
  foldl (fun st contextId => (_ensureContext v st.1 st.2 contextId).1)
        (_contextById, browser) contextIds.

(** ** More sample data *)

Module MoreSamples.
Definition ctxFirefox : ContextCreatedTraceEvent :=
  {| cc_contextId := "c2"; cc_browserName := "firefox"; cc_isMobile := true;
     cc_viewportSize := Some (320, 480) |}.
Definition ctxChromium : ContextCreatedTraceEvent :=
  {| cc_contextId := "c1"; cc_browserName := "chromium"; cc_isMobile := false;
     cc_viewportSize := None |}.
Definition ctxInherited : ContextCreatedTraceEvent :=
  {| cc_contextId := "constructor"; cc_browserName := "chromium";
     cc_isMobile := false; cc_viewportSize := None |}.
Definition click (contextId : string) : ActionTraceEvent :=
  {| act_contextId := contextId; act_pageId := None; act_action := "click";
     act_target := None; act_value := None; act_label := None;
     act_snapshot := None |}.
Definition goto (contextId : string) : ActionTraceEvent :=
  {| act_contextId := contextId; act_pageId := None; act_action := "goto";
     act_target := None; act_value := None; act_label := None;
     act_snapshot := None |}.

(** Two browsers, actions of both interleaved. *)
Definition eventsTwoBrowsers : list TraceEvent :=
  [ ContextCreated ctxChromium; ContextCreated ctxFirefox;
    Action (goto "c1"); Action (goto "c2"); Action (click "c1") ].
Definition viewerTwoBrowsers : TraceViewer :=
  pushTrace (indexEvents newTraceViewer eventsTwoBrowsers) "trace1" eventsTwoBrowsers.

(** Contexts listed in the order of their first action, not of their
    creation: c3 before c1, the firefox context c2 not counting. *)
Definition ctxThird : ContextCreatedTraceEvent :=
  {| cc_contextId := "c3"; cc_browserName := "chromium"; cc_isMobile := false;
     cc_viewportSize := None |}.
Definition eventsThree : list TraceEvent :=
  [ ContextCreated ctxChromium; ContextCreated ctxFirefox; ContextCreated ctxThird;
    Action (goto "c2"); Action (goto "c3"); Action (goto "c1"); Action (click "c3") ].
Definition viewerThree : TraceViewer :=
  pushTrace (indexEvents newTraceViewer eventsThree) "trace1" eventsThree.

(** A context whose id is a name that object literals inherit. *)
Definition eventsInherited : list TraceEvent :=
  [ ContextCreated ctxInherited; Action (click "constructor") ].
Definition viewerInherited : TraceViewer :=
  pushTrace (indexEvents newTraceViewer eventsInherited) "trace1" eventsInherited.

Definition blankContent : string :=
  String " " (String "010" (String "009" (String "010" EmptyString))).

(** A frame without overrides, a request from a frame the snapshot does
    not know, and a blob store that holds nothing. *)
Definition plainFrame : FrameSnapshot :=
  {| fs_frameId := "F"; fs_url := "https://b/"; fs_html := "<html>b</html>";
     fs_resourceOverrides := [] |}.
Definition snapshotPlain : PageSnapshot := {| frames := [plainFrame] |}.
Definition requestCssB : Request :=
  {| req_url := "https://a/style.css"; req_frame_url := "https://b/" |}.
Definition requestForeign : Request :=
  {| req_url := "https://a/style.css"; req_frame_url := "https://other/" |}.
Definition noStorage (path : string) : option string := None.

Definition chromium : Browser :=
  {| browser_name := "chromium"; browser_contexts := [] |}.
End MoreSamples.

(** * Properties *)

(** ** The matching loop *)

Section MatchLoop.
Variables contextId frameId : string.

Lemma matchLoop_started r0 l :
  matchLoop contextId frameId (Some r0) l =
  match firstOfFrame frameId (sameContext contextId l) with
  | Some r => Some r
  | None => Some r0
  end.
Proof.
  unfold sameContext, firstOfFrame.
  induction l as [|r l IH]; simpl; [done|].
  repeat (case_bool_decide; simpl); solve [done | exact IH | exfalso; eauto].
Qed.

Lemma matchCandidates_spec l :
  matchCandidates contextId frameId l = match_spec contextId frameId l.
Proof.
  unfold matchCandidates, match_spec, sameContext, firstOfFrame.
  induction l as [|r l IH]; simpl; [done|].
  repeat (case_bool_decide; simpl);
    try solve [done | exact IH | by destruct (is_Some_None (A := NetworkResourceTraceEvent))].
  apply matchLoop_started.
Qed.

Lemma sameContext_all l :
  Forall (fun r => res_contextId r = contextId) l -> sameContext contextId l = l.
Proof.
  induction 1 as [|r l Hr _ IH]; simpl; [done|].
  unfold sameContext in *; simpl.
  by rewrite (bool_decide_eq_true_2 _ Hr), IH.
Qed.

Lemma sameContext_none l :
  Forall (fun r => res_contextId r <> contextId) l -> sameContext contextId l = [].
Proof.
  induction 1 as [|r l Hr _ IH]; simpl; [done|].
  unfold sameContext in *; simpl.
  by rewrite (bool_decide_eq_false_2 _ Hr).
Qed.

Lemma match_spec_context l r :
  match_spec contextId frameId l = Some r ->
  r ∈ l /\ res_contextId r = contextId.
Proof.
  unfold match_spec, firstOfFrame, sameContext.
  set (keep := fun r0 => bool_decide (res_contextId r0 = contextId)).
  assert (Hin : forall x, In x (List.filter keep l) -> x ∈ l /\ res_contextId x = contextId).
  { intros x Hx. apply filter_In in Hx as [Hx Hk].
    split; [by apply list_elem_of_In|]. unfold keep in Hk.
    by apply bool_decide_eq_true_1 in Hk. }
  destruct (List.find _ (List.filter keep l)) as [r'|] eqn:Hfind.
  - intros [= <-]. apply find_some in Hfind as [Hx _]. by apply Hin.
  - destruct (List.filter keep l) as [|x xs] eqn:Hfl; simpl; [done|].
    intros [= <-]. apply Hin. by left.
Qed.
End MatchLoop.

(** ** Claims about the matcher *)

(** C1 (as amended).  When all candidates stored under the normalised URL
    belong to the replayed context, matching returns the first candidate
    whose frameId is the preferred one, and the earliest-stored candidate
    when there is none.  With three candidates of which only the third has
    frameId F: preferring F returns the third; preferring another frame
    returns the first, unless that frame is the second candidate's and not
    the first's, in which case the second is returned. *)
Theorem matcher_tie_break (v : TraceViewer) (contextId url preferredFrameId : string) :
  Forall (fun r => res_contextId r = contextId) (candidatesFor v url) ->
  matchResource v contextId url preferredFrameId =
    match firstOfFrame preferredFrameId (candidatesFor v url) with
    | Some r => Some r
    | None => head (candidatesFor v url)
    end
  /\ forall r1 r2 r3,
       candidatesFor v url = [r1; r2; r3] ->
       res_frameId r1 <> res_frameId r3 ->
       res_frameId r2 <> res_frameId r3 ->
       (preferredFrameId = res_frameId r3 ->
        matchResource v contextId url preferredFrameId = Some r3)
       /\ (preferredFrameId <> res_frameId r3 ->
           (res_frameId r2 = preferredFrameId -> res_frameId r1 = preferredFrameId) ->
           matchResource v contextId url preferredFrameId = Some r1)
       /\ (res_frameId r2 = preferredFrameId ->
           res_frameId r1 <> preferredFrameId ->
           matchResource v contextId url preferredFrameId = Some r2).
Proof.
  intros Hctx.
  assert (Heq : matchResource v contextId url preferredFrameId =
                match firstOfFrame preferredFrameId (candidatesFor v url) with
                | Some r => Some r
                | None => head (candidatesFor v url)
                end).
  { unfold matchResource. rewrite matchCandidates_spec. unfold match_spec.
    by rewrite sameContext_all. }
  split; [exact Heq|].
  intros r1 r2 r3 Hl H13 H23. rewrite Heq, Hl. unfold firstOfFrame. simpl.
  repeat split; intros; repeat (case_bool_decide; simpl);
    solve [congruence | exfalso; auto].
Qed.

(** C2.  Matching never returns a Resource event of another context than
    the replayed one: whatever it returns is a stored candidate of that
    context, so of two events stored under the same URL the one of context
    B is never returned when replaying context A; and when no candidate of
    the replayed context is stored, nothing is found and a request that is
    not for a frame document is handed to [unknown]. *)
Theorem matcher_context_isolated (v : TraceViewer)
    (contextId url preferredFrameId : string) :
  (forall r, matchResource v contextId url preferredFrameId = Some r ->
             r ∈ candidatesFor v url /\ res_contextId r = contextId)
  /\ (forall b, res_contextId b <> contextId ->
                matchResource v contextId url preferredFrameId <> Some b)
  /\ (Forall (fun r => res_contextId r <> contextId) (candidatesFor v url) ->
      matchResource v contextId url preferredFrameId = None
      /\ forall fsReadFileAsync dir snapshot request st,
           req_url request = url ->
           frameBySrc snapshot !! url = None ->
           (resolve fsReadFileAsync dir v snapshot contextId request).1 = Unknown
           /\ routeHandler fsReadFileAsync dir v snapshot contextId st request
              = unknown st request).
Proof.
  assert (Hsome : forall f r, matchResource v contextId url f = Some r ->
                    r ∈ candidatesFor v url /\ res_contextId r = contextId).
  { intros f r. unfold matchResource. rewrite matchCandidates_spec.
    apply match_spec_context. }
  split; [apply Hsome|]. split.
  - intros b Hb Hm. apply Hsome in Hm as [_ Hm]. done.
  - intros Hnone.
    assert (Hn : forall f, matchResource v contextId url f = None).
    { intros f. unfold matchResource. rewrite matchCandidates_spec.
      unfold match_spec. by rewrite sameContext_none. }
    split; [apply Hn|].
    intros fsReadFileAsync dir snapshot request st Hurl Hframe.
    assert (Hres : (resolve fsReadFileAsync dir v snapshot contextId request).1 = Unknown).
    { unfold resolve. rewrite Hurl, Hframe.
      destruct (frameBySrc snapshot !! req_frame_url request); [|done].
      by rewrite Hn. }
    split; [exact Hres|]. unfold routeHandler. by rewrite Hres.
Qed.

Import Samples.

Lemma matcher_tie_break_witness :
  Forall (fun r => res_contextId r = "c1") (candidatesFor viewer3 "https://a/app.js#top")
  /\ matchResource viewer3 "c1" "https://a/app.js#top" "F" = Some resF.
Proof.
  assert (H : Forall (fun r => res_contextId r = "c1")
                (candidatesFor viewer3 "https://a/app.js#top")).
  { vm_compute. repeat constructor. }
  split; [exact H|].
  destruct (matcher_tie_break viewer3 "c1" "https://a/app.js#top" "F" H) as [_ H3].
  apply (H3 resA resB resF); [reflexivity | discriminate | discriminate | reflexivity].
Defined.

(** The three-candidate case of C1 as the specification states it fails:
    all three candidates are of context c1 and only the third has frame F,
    yet preferring the second candidate's frame returns the second, not
    the first. *)
Lemma matcher_other_frame_counterexample :
  candidatesFor viewer3 "https://a/app.js" = [resA; resB; resF]
  /\ Forall (fun r => res_contextId r = "c1") [resA; resB; resF]
  /\ res_frameId resA <> "F" /\ res_frameId resB <> "F" /\ res_frameId resF = "F"
  /\ "fB" <> "F"
  /\ matchResource viewer3 "c1" "https://a/app.js" "fB" = Some resB
  /\ matchResource viewer3 "c1" "https://a/app.js" "fB" <> Some resA.
Proof.
  repeat split; try reflexivity; try discriminate.
  repeat constructor.
Qed.

Lemma matcher_context_isolated_witness :
  res_contextId resOther <> "c1"
  /\ candidatesFor viewer2 "https://a/app.js" = [resOther; resA]
  /\ matchResource viewer2 "c1" "https://a/app.js" "F" = Some resA
  /\ matchResource viewer2 "c1" "https://a/app.js" "F" <> Some resOther
  /\ Forall (fun r => res_contextId r <> "c3") (candidatesFor viewer2 "https://a/app.js")
  /\ matchResource viewer2 "c3" "https://a/app.js" "F" = None
  /\ routeHandler storage "storage" viewer2 snapshotRootOnly "c3"
       initialReplayState requestApp
     = unknown initialReplayState requestApp.
Proof.
  assert (Hb : res_contextId resOther <> "c1") by discriminate.
  assert (Hn : Forall (fun r => res_contextId r <> "c3")
                 (candidatesFor viewer2 "https://a/app.js")).
  { vm_compute. repeat constructor; discriminate. }
  destruct (matcher_context_isolated viewer2 "c1" "https://a/app.js" "F") as (_ & H2 & _).
  destruct (matcher_context_isolated viewer2 "c3" "https://a/app.js" "F") as (_ & _ & H3).
  destruct (H3 Hn) as [Hnone Hroute].
  destruct (Hroute storage "storage" snapshotRootOnly requestApp initialReplayState
              eq_refl eq_refl) as [_ Hunknown].
  exact (conj Hb (conj eq_refl (conj eq_refl (conj (H2 resOther Hb)
           (conj Hn (conj Hnone Hunknown)))))).
Defined.

(** ** [removeHash] on serialised URLs *)

Lemma append_cons c s t : String c s +:+ t = String c (s +:+ t).
Proof. reflexivity. Qed.

Lemma schemeTail_append s t : schemeTail s = true -> schemeTail (s +:+ t) = true.
Proof.
  induction s as [|c s IH]; [discriminate|].
  rewrite append_cons. simpl.
  case_bool_decide; [done|]. destruct (isSchemeChar c); [exact IH | discriminate].
Qed.

Lemma hasScheme_append s t : hasScheme s = true -> hasScheme (s +:+ t) = true.
Proof.
  destruct s as [|c s]; [discriminate|].
  rewrite append_cons. simpl. intros [Hc Ht]%andb_true_iff.
  by rewrite Hc, schemeTail_append.
Qed.

Lemma beforeHash_without_hash u : afterHash u = None -> beforeHash u = u.
Proof.
  induction u as [|c u IH]; simpl; [done|].
  case_bool_decide; [discriminate|]. intros Hrest. by rewrite IH.
Qed.

Lemma beforeHash_fragment u frag :
  afterHash u = None -> beforeHash (u +:+ "#" +:+ frag) = u.
Proof.
  induction u as [|c u IH]; [done|].
  rewrite append_cons. simpl.
  case_bool_decide; [discriminate|]. intros Hrest. by rewrite IH.
Qed.

Lemma removeHash_without_hash u :
  hasScheme u = true -> afterHash u = None -> removeHash u = u.
Proof.
  intros Hs Hh. unfold removeHash, URL_new. rewrite Hs. simpl.
  unfold URL_toString. simpl. by apply beforeHash_without_hash.
Qed.

Lemma removeHash_fragment u frag :
  hasScheme u = true -> afterHash u = None ->
  removeHash (u +:+ "#" +:+ frag) = u.
Proof.
  intros Hs Hh. unfold removeHash, URL_new.
  rewrite (hasScheme_append _ _ Hs). simpl.
  unfold URL_toString. simpl. by apply beforeHash_fragment.
Qed.

Example removeHash_fragment_dropped :
  removeHash "https://x/y#frag1" = "https://x/y"
  /\ removeHash "https://x/y#" = "https://x/y"
  /\ removeHash "https://x/y" = "https://x/y".
Proof. repeat split. Qed.

Example removeHash_unparsed_unchanged :
  URL_new "x/y#frag1" = None /\ removeHash "x/y#frag1" = "x/y#frag1".
Proof. split; reflexivity. Qed.

(** A request for the script with a fragment is answered from the Resource
    events stored under the fragment-free URL, here by the one recorded
    for the requesting frame. *)
Example script_with_fragment_resolved :
  resolve storage "storage" viewer3 snapshotRootOnly "c1"
    {| req_url := "https://a/app.js#v2"; req_frame_url := "https://a/" |}
  = (ServeResource {| rd_contentType := "text/javascript";
                      rd_body := "f()";
                      rd_headers := [] |},
     [FrameTable; Matcher; Overrides; BlobStore]).
Proof. reflexivity. Qed.

(** ** What [load] does to the tables *)

Lemma resourcesAt_app u l1 l2 :
  resourcesAt u (l1 ++ l2) = resourcesAt u l1 ++ resourcesAt u l2.
Proof. unfold resourcesAt. apply flat_map_app. Qed.

Lemma resourcesAt_elem e events :
  Resource e ∈ events -> e ∈ resourcesAt (res_url e) events.
Proof.
  induction events as [|ev events IH]; [by intros ?%elem_of_nil|].
  intros Hin. change (ev :: events) with ([ev] ++ events).
  rewrite resourcesAt_app. apply elem_of_app.
  apply elem_of_cons in Hin as [<-|Hin].
  - left. simpl. rewrite bool_decide_eq_true_2 by done. by left.
  - right. by apply IH.
Qed.

Lemma indexEvent_resources v event u :
  default [] (_resourceEventsByUrl (indexEvent v event) !! u)
  = default [] (_resourceEventsByUrl v !! u) ++ resourcesAt u [event].
Proof.
  destruct event as [e| | | |e|e]; simpl; try by rewrite app_nil_r.
  case_bool_decide as Hu; simpl.
  - subst u. by rewrite lookup_insert_eq.
  - rewrite lookup_insert_ne by done. by rewrite app_nil_r.
Qed.

Lemma indexEvents_resources events : forall v u,
  default [] (_resourceEventsByUrl (indexEvents v events) !! u)
  = default [] (_resourceEventsByUrl v !! u) ++ resourcesAt u events.
Proof.
  induction events as [|ev events IH]; intros v u; simpl.
  - by rewrite app_nil_r.
  - unfold indexEvents in *. simpl. rewrite IH, indexEvent_resources.
    rewrite <- app_assoc. f_equal. simpl. by rewrite app_nil_r.
Qed.

Section ParseLines.
Variable JSON_parse : string -> option TraceEvent.

Lemma parseLines_Ok ls : forall events,
  parseLines JSON_parse ls = Ok events ->
  Forall2 (fun line event => JSON_parse line = Some event) ls events.
Proof.
  induction ls as [|line ls IH]; simpl; intros events.
  - intros [= <-]. constructor.
  - destruct (JSON_parse line) as [event|] eqn:Hline; [|discriminate].
    destruct (parseLines JSON_parse ls) as [events'|e]; [|discriminate].
    intros [= <-]. constructor; [done | by apply IH].
Qed.

Lemma parseLines_malformed ls :
  (exists line, line ∈ ls /\ JSON_parse line = None) ->
  parseLines JSON_parse ls = Throw SyntaxError.
Proof.
  intros (bad & Hin & Hbad).
  induction ls as [|line ls IH]; [by apply elem_of_nil in Hin|]. simpl.
  destruct (JSON_parse line) as [event|] eqn:Hline; [|done].
  apply elem_of_cons in Hin as [->|Hin]; [congruence|].
  by rewrite (IH Hin).
Qed.

Lemma parseLines_total ls :
  Forall (fun line => is_Some (JSON_parse line)) ls ->
  exists events, parseLines JSON_parse ls = Ok events.
Proof.
  induction 1 as [|line ls [event Hline] _ [events IH]]; simpl; [by eexists|].
  rewrite Hline, IH. by eexists.
Qed.

Lemma parsed_event_elem ls events line event :
  Forall2 (fun line event => JSON_parse line = Some event) ls events ->
  line ∈ ls -> JSON_parse line = Some event -> event ∈ events.
Proof.
  induction 1 as [|l ev ls evs Hl _ IH]; [by intros ?%elem_of_nil|].
  intros [->|Hin]%elem_of_cons Hp.
  - rewrite Hl in Hp. injection Hp as ->. by left.
  - right. by apply IH.
Qed.
End ParseLines.

(** ** Claims about [load] *)

(** C3 (a defect of the code).  The index is meant to hold every Resource
    event under its URL without the fragment: the interceptor's comment
    says that resources are stored without hash, and it strips the
    fragment of every URL it looks up.  [load] does not strip: it stores
    the event under its URL as recorded.  At a trace whose one Resource
    event was recorded under https://x/y#frag1 the event lands under that
    key, so that the lookups for https://x/y#frag1, https://x/y#frag2 and
    https://x/y all come back empty and a request for the very URL of the
    event is handed to [unknown]. *)
Lemma load_keeps_fragment_at_failing_input :
  let v' := (load sample_parse newTraceViewer "trace1" trace_frag).1 in
  load sample_parse newTraceViewer "trace1" trace_frag = (v', Ok tt)
  /\ res_url resFrag = "https://x/y#frag1"
  /\ _resourceEventsByUrl v' !! "https://x/y#frag1" = Some [resFrag]
  /\ _resourceEventsByUrl v' !! removeHash "https://x/y#frag1" = None
  /\ candidatesFor v' "https://x/y#frag1" = []
  /\ candidatesFor v' "https://x/y#frag2" = []
  /\ candidatesFor v' "https://x/y" = []
  /\ resolve storage "storage" v' snapshotRootOnly "c1"
       {| req_url := "https://x/y#frag1"; req_frame_url := "https://a/" |}
     = (Unknown, [FrameTable; Matcher]).
Proof. vm_compute. repeat split; reflexivity. Qed.

(** C8.  When a line of the trace source is not well-formed JSON, [load]
    throws the parse error and leaves the viewer as it was: the list of
    loaded traces, the set of browser names, the context table and the
    resource index per URL are those from before the call. *)
Theorem load_malformed_line_atomic (JSON_parse : string -> option TraceEvent)
    (v : TraceViewer) (traceFile traceContent : string) :
  (exists line, line ∈ traceLines traceContent /\ JSON_parse line = None) ->
  load JSON_parse v traceFile traceContent = (v, Throw SyntaxError)
  /\ _traces (load JSON_parse v traceFile traceContent).1 = _traces v
  /\ _browserNames (load JSON_parse v traceFile traceContent).1 = _browserNames v
  /\ _contextEventById (load JSON_parse v traceFile traceContent).1
     = _contextEventById v
  /\ _resourceEventsByUrl (load JSON_parse v traceFile traceContent).1
     = _resourceEventsByUrl v.
Proof.
  intros Hbad. unfold load.
  by rewrite (parseLines_malformed JSON_parse _ Hbad).
Qed.

Lemma load_malformed_line_atomic_witness :
  (exists line, line ∈ traceLines trace_malformed /\ sample_parse line = None)
  /\ load sample_parse viewer3 "trace2" trace_malformed = (viewer3, Throw SyntaxError).
Proof.
  assert (Hbad : exists line,
             line ∈ traceLines trace_malformed /\ sample_parse line = None).
  { exists line_malformed. split; [vm_compute; right; left | reflexivity]. }
  split; [exact Hbad|].
  exact (proj1 (load_malformed_line_atomic sample_parse viewer3 "trace2"
                  trace_malformed Hbad)).
Defined.

(** ** The context table of [show] *)

Section ContextTable.
Variable v : TraceViewer.
Variable browserName : string.

Lemma showEvent_throws traceFile st event e :
  showEvent v browserName traceFile st event = Throw e -> e = TypeError.
Proof.
  unfold showEvent. intros H.
  repeat (case_match; simplify_eq); done.
Qed.

Lemma showEvents_throws traceFile events : forall st e,
  showEvents v browserName traceFile st events = Throw e -> e = TypeError.
Proof.
  induction events as [|event events IH]; simpl; intros st e; [done|].
  destruct (showEvent v browserName traceFile st event) as [st'|e'] eqn:Hev.
  - apply IH.
  - intros [= <-]. by eapply showEvent_throws.
Qed.

Lemma showEvent_orphaned traceFile st a :
  orphaned v (act_contextId a) ->
  showEvent v browserName traceFile st (Action a) = Throw TypeError.
Proof. unfold orphaned, showEvent. by intros ->. Qed.

Lemma showEvents_orphaned traceFile events a :
  Action a ∈ events -> orphaned v (act_contextId a) ->
  forall st, showEvents v browserName traceFile st events = Throw TypeError.
Proof.
  intros Hin Horph.
  induction events as [|event events IH]; [by apply elem_of_nil in Hin|].
  intros st. simpl.
  destruct (showEvent v browserName traceFile st event) as [st'|e] eqn:Hev.
  - apply elem_of_cons in Hin as [<-|Hin].
    + by rewrite showEvent_orphaned in Hev.
    + by apply IH.
  - f_equal. by eapply showEvent_throws.
Qed.

Lemma showTraces_orphaned traces traceFile events a :
  (traceFile, events) ∈ traces ->
  Action a ∈ events -> orphaned v (act_contextId a) ->
  forall contextData, showTraces v browserName contextData traces = Throw TypeError.
Proof.
  intros Hin Ha Horph.
  induction traces as [|[file evs] traces IH]; [by apply elem_of_nil in Hin|].
  intros contextData. simpl.
  destruct (showEvents v browserName file (0, contextData) evs) as [st|e] eqn:Hevs.
  - apply elem_of_cons in Hin as [[= <- <-]|Hin].
    + by rewrite (showEvents_orphaned _ _ _ Ha Horph) in Hevs.
    + by apply IH.
  - f_equal. by eapply showEvents_throws.
Qed.
End ContextTable.

(** C7 (as amended).  [load] never fails because of an event whose context
    was never created: when every line parses it returns, keeping the
    events as they are.  [show] does not skip an Action event whose
    contextId names no ContextCreated event of any loaded trace: building
    the context table throws on reading the browser name of the missing
    context event. *)
Theorem orphaned_action_fails_show (JSON_parse : string -> option TraceEvent)
    (v : TraceViewer) (traceFile traceContent browserName : string) :
  Forall (fun line => is_Some (JSON_parse line)) (traceLines traceContent) ->
  (exists events,
      parseLines JSON_parse (traceLines traceContent) = Ok events
      /\ load JSON_parse v traceFile traceContent
         = (pushTrace (indexEvents v events) traceFile events, Ok tt))
  /\ (forall line a,
        line ∈ traceLines traceContent ->
        JSON_parse line = Some (Action a) ->
        orphaned (load JSON_parse v traceFile traceContent).1 (act_contextId a) ->
        show_contextData (load JSON_parse v traceFile traceContent).1 browserName
        = Throw TypeError).
Proof.
  intros Hlines.
  destruct (parseLines_total JSON_parse _ Hlines) as [events Hparse].
  unfold load. rewrite Hparse. split; [by exists events|].
  intros line a Hline Ha Horph. unfold show_contextData.
  eapply (showTraces_orphaned _ _ _ traceFile events a); [| |exact Horph].
  - simpl. apply elem_of_app. right. by left.
  - eapply parsed_event_elem; eauto using parseLines_Ok.
Qed.

Lemma orphaned_action_fails_show_witness :
  Forall (fun line => is_Some (sample_parse line)) (traceLines trace_orphan)
  /\ (load sample_parse newTraceViewer "trace1" trace_orphan).2 = Ok tt
  /\ show_contextData (load sample_parse newTraceViewer "trace1" trace_orphan).1
       "chromium" = Throw TypeError.
Proof.
  assert (Hlines : Forall (fun line => is_Some (sample_parse line))
                     (traceLines trace_orphan)).
  { vm_compute. repeat constructor; by eexists. }
  destruct (orphaned_action_fails_show sample_parse newTraceViewer "trace1"
              trace_orphan "chromium" Hlines) as [_ Hshow].
  split; [exact Hlines|]. split; [reflexivity|].
  apply (Hshow line_orphanAction orphanAction);
    [vm_compute; right; left | reflexivity | reflexivity].
Defined.

(** C7 as the specification states it fails: a log made of a context and
    an action of a context that was never created loads, but [show] fails
    on it instead of skipping the action. *)
Lemma orphaned_action_counterexample :
  let v := (load sample_parse newTraceViewer "trace1" trace_orphan).1 in
  (load sample_parse newTraceViewer "trace1" trace_orphan).2 = Ok tt
  /\ _traces v = [("trace1", [ContextCreated ctx1; Action orphanAction])]
  /\ orphaned v (act_contextId orphanAction)
  /\ show_contextData v "chromium" = Throw TypeError
  /\ show_contextData v "chromium" <> Ok ∅.
Proof. vm_compute. repeat split; (reflexivity || discriminate). Qed.

(** ** The interceptor *)

Lemma frameBySrc_fold url l : forall m : gmap string FrameSnapshot,
  foldl (fun m frameSnapshot => <[ fs_url frameSnapshot := frameSnapshot ]> m) m l !! url
  = match last (List.filter (fun f => bool_decide (fs_url f = url)) l) with
    | Some f => Some f
    | None => m !! url
    end.
Proof.
  induction l as [|a l IH]; intros m; simpl; [done|].
  rewrite IH. case_bool_decide as Ha.
  - rewrite last_cons. destruct (last _); [done|].
    subst url. by rewrite lookup_insert_eq.
  - destruct (last _); [done|]. by rewrite lookup_insert_ne.
Qed.

Lemma frameBySrc_lookup snapshot url :
  frameBySrc snapshot !! url = lastFrameWithUrl snapshot url.
Proof.
  unfold frameBySrc, lastFrameWithUrl, framesWithUrl.
  rewrite frameBySrc_fold. by destruct (last _).
Qed.

Lemma lastFrameWithUrl_Some snapshot url f :
  lastFrameWithUrl snapshot url = Some f ->
  f ∈ frames snapshot /\ fs_url f = url.
Proof.
  unfold lastFrameWithUrl, framesWithUrl. intros Hlast.
  apply last_Some_elem_of, list_elem_of_In, filter_In in Hlast as [Hin Hurl].
  split; [by apply list_elem_of_In | by apply bool_decide_eq_true_1 in Hurl].
Qed.

Lemma lastFrameWithUrl_is_Some snapshot url f :
  f ∈ frames snapshot -> fs_url f = url ->
  is_Some (lastFrameWithUrl snapshot url).
Proof.
  unfold lastFrameWithUrl, framesWithUrl. intros Hin Hurl.
  assert (Hf : In f (List.filter (fun f => bool_decide (fs_url f = url)) (frames snapshot))).
  { apply filter_In. split; [by apply list_elem_of_In | by apply bool_decide_eq_true_2]. }
  destruct (List.filter _ (frames snapshot)) as [|x xs] eqn:Hfl; [done|].
  rewrite last_cons. destruct (last xs); by eexists.
Qed.

Section Interceptor.
Variable fsReadFileAsync : string -> option string.
Variable _traceStorageDir : string.
Variable v : TraceViewer.
Variable snapshot : PageSnapshot.
Variable contextId : string.

Lemma resolve_frame_document request frameSnapshot :
  lastFrameWithUrl snapshot (req_url request) = Some frameSnapshot ->
  resolve fsReadFileAsync _traceStorageDir v snapshot contextId request = (ServeFrame frameSnapshot, [FrameTable]).
Proof.
  intros Hlast. unfold resolve.
  by rewrite frameBySrc_lookup, Hlast.
Qed.

Lemma routeHandler_frame_document st request frameSnapshot :
  lastFrameWithUrl snapshot (req_url request) = Some frameSnapshot ->
  routeHandler fsReadFileAsync _traceStorageDir v snapshot contextId st request = fulfill st request {| contentType := "text/html";
                             body := fs_html frameSnapshot;
                             headers := None |}.
Proof.
  intros Hlast. unfold routeHandler.
  by rewrite (resolve_frame_document _ _ Hlast).
Qed.

(** C10.  A request whose URL is the recorded URL of any frame of the
    snapshot is fulfilled with a frame's html as text/html after
    consulting the frame table only, neither the overrides nor the
    matcher: the frame served is the last one of the frames sequence
    recorded with that URL, hence the frame itself when no other frame
    shares its URL. *)
Theorem frame_document_served (st : ReplayState) (request : Request) :
  (exists f, f ∈ frames snapshot /\ fs_url f = req_url request) ->
  exists frameSnapshot,
    lastFrameWithUrl snapshot (req_url request) = Some frameSnapshot
    /\ frameSnapshot ∈ frames snapshot
    /\ fs_url frameSnapshot = req_url request
    /\ resolve fsReadFileAsync _traceStorageDir v snapshot contextId request = (ServeFrame frameSnapshot, [FrameTable])
    /\ routeHandler fsReadFileAsync _traceStorageDir v snapshot contextId st request
       = fulfill st request {| contentType := "text/html";
                               body := fs_html frameSnapshot;
                               headers := None |}
    /\ (forall f, framesWithUrl snapshot (req_url request) = [f] -> frameSnapshot = f)
    /\ (forall l f, framesWithUrl snapshot (req_url request) = l ++ [f] ->
                    frameSnapshot = f).
Proof.
  intros (f & Hin & Hurl).
  destruct (lastFrameWithUrl_is_Some snapshot _ f Hin Hurl) as [fsn Hlast].
  exists fsn. destruct (lastFrameWithUrl_Some _ _ _ Hlast) as [Hin' Hurl'].
  repeat split; try done.
  - by apply resolve_frame_document.
  - by apply routeHandler_frame_document.
  - unfold lastFrameWithUrl in Hlast. intros g Hg. rewrite Hg in Hlast.
    by injection Hlast.
  - unfold lastFrameWithUrl in Hlast. intros l g Hg. rewrite Hg, last_snoc in Hlast.
    by injection Hlast.
Qed.

(** C5 (as amended).  A request whose URL is the root frame's recorded URL
    is fulfilled as text/html after consulting the frame table only, never
    the matcher, whatever the resource index holds.  The html served is
    that of the last frame recorded with the root's URL: the root's own
    html when no later frame shares its URL. *)
Theorem root_document_served (st : ReplayState) (request : Request)
    (root : FrameSnapshot) (rest : list FrameSnapshot) :
  frames snapshot = root :: rest ->
  req_url request = fs_url root ->
  let served :=
    default root (last (List.filter (fun f => bool_decide (fs_url f = fs_url root)) rest)) in
  resolve fsReadFileAsync _traceStorageDir v snapshot contextId request = (ServeFrame served, [FrameTable])
  /\ (Matcher ∉ (resolve fsReadFileAsync _traceStorageDir v snapshot contextId request).2)
  /\ routeHandler fsReadFileAsync _traceStorageDir v snapshot contextId st request
     = fulfill st request {| contentType := "text/html";
                             body := fs_html served;
                             headers := None |}
  /\ (Forall (fun f => fs_url f <> fs_url root) rest -> served = root).
Proof.
  intros Hframes Hurl served.
  assert (Hlast : lastFrameWithUrl snapshot (req_url request) = Some served).
  { unfold lastFrameWithUrl, framesWithUrl. rewrite Hframes, Hurl. simpl.
    rewrite bool_decide_eq_true_2 by done. rewrite last_cons.
    unfold served. by destruct (last _). }
  rewrite (resolve_frame_document _ _ Hlast).
  rewrite (routeHandler_frame_document st _ _ Hlast).
  repeat split.
  - simpl. by intros [=]%list_elem_of_singleton.
  - intros Hrest. unfold served.
    replace (List.filter _ rest) with (@nil FrameSnapshot); [done|].
    symmetry. clear -Hrest.
    induction Hrest as [|f l Hf _ IH]; simpl; [done|].
    by rewrite bool_decide_eq_false_2.
Qed.

(** C4 (as amended).  For a request that is not for a frame document and
    whose requesting frame is known, the matcher runs first and the
    overrides are consulted only once it has found a candidate.  Then the
    first override recorded for exactly the requested URL, when its
    content hash is not empty, decides the body that is served, whatever
    the candidate's own hash is, while content type and headers remain
    the candidate's.  When the matcher finds no candidate the request is
    handed to [unknown], override or not. *)
Theorem override_replaces_body (st : ReplayState) (request : Request)
    (frameSnapshot : FrameSnapshot) (o : ResourceOverride) :
  frameBySrc snapshot !! req_url request = None ->
  frameBySrc snapshot !! req_frame_url request = Some frameSnapshot ->
  List.find (fun o => bool_decide (ov_url o = req_url request))
            (fs_resourceOverrides frameSnapshot) = Some o ->
  ov_sha1 o <> "" ->
  (forall resource content,
      matchResource v contextId (req_url request) (fs_frameId frameSnapshot)
        = Some resource ->
      fsReadFileAsync (path_join _traceStorageDir (ov_sha1 o)) = Some content ->
      resolve fsReadFileAsync _traceStorageDir v snapshot contextId request
        = (ServeResource {| rd_contentType := res_contentType resource;
                            rd_body := content;
                            rd_headers := res_responseHeaders resource |},
           [FrameTable; Matcher; Overrides; BlobStore])
      /\ routeHandler fsReadFileAsync _traceStorageDir v snapshot contextId st request
         = fulfill st request
             {| contentType := res_contentType resource;
                body := content;
                headers := Some (buildHeaders (res_responseHeaders resource)) |})
  /\ (matchResource v contextId (req_url request) (fs_frameId frameSnapshot) = None ->
      resolve fsReadFileAsync _traceStorageDir v snapshot contextId request = (Unknown, [FrameTable; Matcher])
      /\ routeHandler fsReadFileAsync _traceStorageDir v snapshot contextId st request = unknown st request).
Proof.
  intros Hdoc Hframe Hfind Hsha.
  assert (Hor : forall sha1, orElse (Some (ov_sha1 o)) sha1 = ov_sha1 o).
  { intros sha1. unfold orElse. by rewrite bool_decide_eq_false_2. }
  split.
  - intros resource content Hmatch Hread.
    assert (Hres : resolve fsReadFileAsync _traceStorageDir v snapshot contextId request
              = (ServeResource {| rd_contentType := res_contentType resource;
                                  rd_body := content;
                                  rd_headers := res_responseHeaders resource |},
                 [FrameTable; Matcher; Overrides; BlobStore])).
    { unfold resolve. rewrite Hdoc, Hframe, Hmatch, Hfind. simpl.
      unfold _readResource. by rewrite Hor, Hread. }
    split; [exact Hres|]. unfold routeHandler. by rewrite Hres.
  - intros Hmatch.
    assert (Hres : resolve fsReadFileAsync _traceStorageDir v snapshot contextId request = (Unknown, [FrameTable; Matcher])).
    { unfold resolve. by rewrite Hdoc, Hframe, Hmatch. }
    split; [exact Hres|]. unfold routeHandler. by rewrite Hres.
Qed.
End Interceptor.

Lemma frame_document_served_witness :
  (exists f, f ∈ frames snapshotSelfFramed /\ fs_url f = req_url requestRoot)
  /\ routeHandler storage "storage" viewerCss snapshotSelfFramed "c1"
       initialReplayState requestRoot
     = fulfill initialReplayState requestRoot
         {| contentType := "text/html"; body := "<html>child</html>"; headers := None |}.
Proof.
  assert (Hex : exists f, f ∈ frames snapshotSelfFramed /\ fs_url f = req_url requestRoot).
  { exists rootFrame. split; [left | reflexivity]. }
  split; [exact Hex|].
  destruct (frame_document_served storage "storage" viewerCss snapshotSelfFramed "c1"
              initialReplayState requestRoot Hex)
    as (served & _ & _ & _ & _ & Hhandler & _ & Hlast).
  rewrite Hhandler. by rewrite (Hlast [rootFrame] childFrame eq_refl).
Defined.

Lemma root_document_served_witness :
  frames snapshotRootOnly = [rootFrame]
  /\ req_url requestRoot = fs_url rootFrame
  /\ candidatesFor viewerCss (req_url requestRoot) = [resRootUrl]
  /\ routeHandler storage "storage" viewerCss snapshotRootOnly "c1"
       initialReplayState requestRoot
     = fulfill initialReplayState requestRoot
         {| contentType := "text/html"; body := "<html>root</html>"; headers := None |}.
Proof.
  destruct (root_document_served storage "storage" viewerCss snapshotRootOnly "c1"
              initialReplayState requestRoot rootFrame [] eq_refl eq_refl)
    as (_ & _ & Hhandler & _).
  exact (conj eq_refl (conj eq_refl (conj eq_refl Hhandler))).
Defined.

(** C5 as the specification states it fails: when a later frame of the
    snapshot was recorded with the root's URL, a request for that URL is
    answered with the later frame's html, not the root's. *)
Lemma root_document_counterexample :
  frames snapshotSelfFramed = [rootFrame; childFrame]
  /\ req_url requestRoot = fs_url rootFrame
  /\ routeHandler storage "storage" viewerCss snapshotSelfFramed "c1"
       initialReplayState requestRoot
     = fulfill initialReplayState requestRoot
         {| contentType := "text/html"; body := fs_html childFrame; headers := None |}
  /\ routeHandler storage "storage" viewerCss snapshotSelfFramed "c1"
       initialReplayState requestRoot
     <> fulfill initialReplayState requestRoot
         {| contentType := "text/html"; body := fs_html rootFrame; headers := None |}.
Proof. vm_compute. repeat split; (reflexivity || discriminate). Qed.

Lemma override_replaces_body_witness :
  frameBySrc snapshotRootOnly !! req_url requestCss = None
  /\ frameBySrc snapshotRootOnly !! req_frame_url requestCss = Some rootFrame
  /\ matchResource viewerCss "c1" (req_url requestCss) "F" = Some resCss
  /\ res_sha1 resCss <> "sha-ov"
  /\ routeHandler storage "storage" viewerCss snapshotRootOnly "c1"
       initialReplayState requestCss
     = fulfill initialReplayState requestCss
         {| contentType := "text/css";
            body := "body { color: red }";
            headers := Some (buildHeaders [("Cache-Control", "no-cache")]) |}.
Proof.
  assert (Hsha : ov_sha1 {| ov_url := "https://a/style.css"; ov_sha1 := "sha-ov" |} <> "")
    by discriminate.
  destruct (override_replaces_body storage "storage" viewerCss snapshotRootOnly "c1"
              initialReplayState requestCss rootFrame
              {| ov_url := "https://a/style.css"; ov_sha1 := "sha-ov" |}
              eq_refl eq_refl eq_refl Hsha) as [Hserve _].
  destruct (Hserve resCss "body { color: red }" eq_refl eq_refl) as [_ Hhandler].
  assert (Hother : res_sha1 resCss <> "sha-ov") by discriminate.
  exact (conj eq_refl (conj eq_refl (conj eq_refl (conj Hother Hhandler)))).
Defined.

(** C4 as the specification states it fails: the frame has an override for
    the requested URL and the blob store holds its content, but no
    Resource event is stored for the URL, and the route is aborted. *)
Lemma override_without_candidate_counterexample :
  frameBySrc snapshotRootOnly !! req_url requestCss = None
  /\ frameBySrc snapshotRootOnly !! req_frame_url requestCss = Some rootFrame
  /\ List.find (fun o => bool_decide (ov_url o = req_url requestCss))
       (fs_resourceOverrides rootFrame)
     = Some {| ov_url := "https://a/style.css"; ov_sha1 := "sha-ov" |}
  /\ storage (path_join "storage" "sha-ov") = Some "body { color: red }"
  /\ matchResource viewer3 "c1" (req_url requestCss) (fs_frameId rootFrame) = None
  /\ intercepted (routeHandler storage "storage" viewer3 snapshotRootOnly "c1"
                    initialReplayState requestCss)
     = [ {| st_request := requestCss; st_outcome := Abort |} ].
Proof. vm_compute. repeat split; reflexivity. Qed.

(** ** The walk over the child frames *)

Lemma flat_map_if {A B} (p : A -> bool) (g : A -> list B) (l : list A) :
  flat_map (fun x => if p x then g x else []) l = flat_map g (List.filter p l).
Proof.
  induction l as [|x l IH]; simpl; [done|].
  destruct (p x); simpl; by rewrite IH.
Qed.

(** C9 (as amended).  For every live child frame the walk waits for the
    child to load and then recurses into every FrameSnapshot whose recorded
    URL is a suffix of the child's URL, once for each of them, in the order
    of the snapshot's frames; it does not stop at the first. *)
Theorem postprocess_recurses_into_every_match (snapshot : PageSnapshot)
    (frameSnapshot : FrameSnapshot) (frame : Frame) :
  _postprocessSnapshotFrame snapshot frameSnapshot frame
  = flat_map
      (fun child =>
         WaitForLoadState (frame_url child) ::
         flat_map
           (fun childData =>
              Recurse childData (frame_url child)
              :: _postprocessSnapshotFrame snapshot childData child)
           (recursedInto snapshot (frame_url child)))
      (childFrames frame)
  /\ forall url childUrl,
       _postprocessSnapshotFrame snapshot frameSnapshot
         {| frame_url := url;
            childFrames := [ {| frame_url := childUrl; childFrames := [] |} ] |}
       = WaitForLoadState childUrl
         :: List.map (fun childData => Recurse childData childUrl)
                     (recursedInto snapshot childUrl).
Proof.
  split.
  - destruct frame as [url children]. simpl.
    apply flat_map_ext. intros child. f_equal. unfold recursedInto.
    by rewrite <- flat_map_if.
  - intros url childUrl. simpl. rewrite app_nil_r. f_equal.
    unfold recursedInto. induction (frames snapshot) as [|f l IH]; simpl; [done|].
    destruct (endsWith childUrl (fs_url f)); simpl; by rewrite IH.
Qed.

(** C9 as the specification states it fails: two frames of the snapshot
    were recorded at about:blank, and for the one live child at that URL
    the walk recurses into both of them. *)
Lemma postprocess_two_matches_counterexample :
  frames snapshotBlanks = [rootFrame; blankA; blankB]
  /\ recursedInto snapshotBlanks "about:blank" = [blankA; blankB]
  /\ _postprocessSnapshotFrame snapshotBlanks rootFrame livePage
     = [ WaitForLoadState "about:blank";
         Recurse blankA "about:blank";
         Recurse blankB "about:blank" ].
Proof. vm_compute. repeat split; reflexivity. Qed.

(** ** Unmatched requests *)

Lemma unknownMessage_inj url1 url2 :
  unknownMessage url1 = unknownMessage url2 -> url1 = url2.
Proof. unfold unknownMessage. intros H. by simplify_eq. Qed.

Lemma firstOccurrences_count (x : string) (urls : list string) : forall seen : gset string,
  count_occ string_dec (firstOccurrences seen urls) x
  = if bool_decide (x ∈ urls /\ x ∉ seen) then 1 else 0.
Proof.
  induction urls as [|url urls IH]; intros seen; simpl; [done|].
  destruct (decide (url ∈ seen)) as [Hseen|Hseen].
  - rewrite (bool_decide_eq_true_2 (url ∈ seen) Hseen), IH.
    apply (f_equal (fun b : bool => if b then 1 else 0)).
    apply bool_decide_ext. rewrite elem_of_cons. set_solver.
  - rewrite (bool_decide_eq_false_2 (url ∈ seen) Hseen). simpl. rewrite IH.
    destruct (string_dec url x) as [->|Hne].
    + rewrite (bool_decide_eq_false_2 (x ∈ urls /\ x ∉ {[x]} ∪ seen)) by set_solver.
      rewrite (bool_decide_eq_true_2 (x ∈ x :: urls /\ x ∉ seen)); [done|].
      split; [by left | done].
    + apply (f_equal (fun b : bool => if b then 1 else 0)).
      apply bool_decide_ext. rewrite elem_of_cons. set_solver.
Qed.

Lemma unknown_fresh st route :
  req_url route ∉ unknownUrls st ->
  unknown st route
  = {| unknownUrls := {[ req_url route ]} ∪ unknownUrls st;
       console := console st ++ [unknownMessage (req_url route)];
       intercepted := intercepted st
                      ++ [ {| st_request := route; st_outcome := Abort |} ] |}.
Proof. intros Hnew. unfold unknown. by rewrite bool_decide_eq_false_2. Qed.

Lemma unknown_seen st route :
  req_url route ∈ unknownUrls st ->
  unknown st route
  = {| unknownUrls := unknownUrls st;
       console := console st;
       intercepted := intercepted st
                      ++ [ {| st_request := route; st_outcome := Abort |} ] |}.
Proof. intros Hseen. unfold unknown. by rewrite bool_decide_eq_true_2. Qed.

Section Unmatched.
Variable fsReadFileAsync : string -> option string.
Variable _traceStorageDir : string.
Variable v : TraceViewer.
Variable snapshot : PageSnapshot.
Variable contextId : string.

Lemma routeHandler_matched st route :
  unmatched fsReadFileAsync _traceStorageDir v snapshot contextId route = false ->
  routeHandler fsReadFileAsync _traceStorageDir v snapshot contextId st route
  = {| unknownUrls := unknownUrls st;
       console := console st;
       intercepted := intercepted st
         ++ [settle fsReadFileAsync _traceStorageDir v snapshot contextId route] |}.
Proof.
  unfold unmatched, routeHandler, settle.
  by destruct (resolve _ _ _ _ _ route).1.
Qed.

Lemma routeHandler_unmatched st route :
  unmatched fsReadFileAsync _traceStorageDir v snapshot contextId route = true ->
  routeHandler fsReadFileAsync _traceStorageDir v snapshot contextId st route
  = unknown st route
  /\ settle fsReadFileAsync _traceStorageDir v snapshot contextId route
     = {| st_request := route; st_outcome := Abort |}.
Proof.
  unfold unmatched, routeHandler, settle.
  by destruct (resolve _ _ _ _ _ route).1.
Qed.

Lemma replay_from routes : forall st,
  let final := foldl (routeHandler fsReadFileAsync _traceStorageDir v snapshot contextId)
                     st routes in
  intercepted final
  = intercepted st
    ++ List.map (settle fsReadFileAsync _traceStorageDir v snapshot contextId) routes
  /\ console final
     = console st
       ++ List.map unknownMessage
            (firstOccurrences (unknownUrls st)
               (unmatchedUrls fsReadFileAsync _traceStorageDir v snapshot contextId routes)).
Proof.
  induction routes as [|route routes IH]; intros st; simpl.
  - by rewrite !app_nil_r.
  - destruct (IH (routeHandler fsReadFileAsync _traceStorageDir v snapshot contextId
                    st route)) as [Hi Hc].
    rewrite Hi, Hc. unfold unmatchedUrls. simpl.
    destruct (unmatched _ _ _ _ _ route) eqn:Hun.
    + destruct (routeHandler_unmatched st route Hun) as [-> ->].
      unfold unknown. simpl. case_bool_decide as Hseen; simpl.
      * by rewrite <- app_assoc.
      * by rewrite <- !app_assoc.
    + rewrite (routeHandler_matched st route Hun). simpl.
      by rewrite <- app_assoc.
Qed.

(** C6.  In one replay every distinct URL handed to [unknown] is written
    to the console exactly once, whatever the number of requests for it,
    and every route is settled: the join list holds one entry per
    intercepted request, an abort for each unmatched one. *)
Theorem unmatched_logged_once_and_aborted (routes : list Request) :
  let final := replay fsReadFileAsync _traceStorageDir v snapshot contextId routes in
  let urls := unmatchedUrls fsReadFileAsync _traceStorageDir v snapshot contextId routes in
  console final = List.map unknownMessage (firstOccurrences ∅ urls)
  /\ (forall url,
        count_occ string_dec (console final) (unknownMessage url)
        = if bool_decide (url ∈ urls) then 1 else 0)
  /\ intercepted final
     = List.map (settle fsReadFileAsync _traceStorageDir v snapshot contextId) routes
  /\ length (intercepted final) = length routes
  /\ (forall route,
        route ∈ routes ->
        unmatched fsReadFileAsync _traceStorageDir v snapshot contextId route = true ->
        {| st_request := route; st_outcome := Abort |} ∈ intercepted final)
  /\ (forall route,
        unmatched fsReadFileAsync _traceStorageDir v snapshot contextId route = true ->
        let twice := replay fsReadFileAsync _traceStorageDir v snapshot contextId
                       [route; route] in
        console twice = [unknownMessage (req_url route)]
        /\ intercepted twice = [ {| st_request := route; st_outcome := Abort |};
                                 {| st_request := route; st_outcome := Abort |} ]).
Proof.
  intros final urls.
  destruct (replay_from routes initialReplayState) as [Hi Hc].
  fold (replay fsReadFileAsync _traceStorageDir v snapshot contextId routes) in Hi, Hc.
  fold final in Hi, Hc. fold urls in Hc. simpl in Hi, Hc.
  split; [exact Hc|]. split; [|split; [exact Hi|split; [|split]]].
  - intros url. rewrite Hc.
    rewrite <- (count_occ_map unknownMessage string_dec string_dec unknownMessage_inj).
    rewrite firstOccurrences_count.
    apply (f_equal (fun b : bool => if b then 1 else 0)).
    apply bool_decide_ext. set_solver.
  - by rewrite Hi, length_map.
  - intros route Hin Hun. rewrite Hi.
    destruct (routeHandler_unmatched initialReplayState route Hun) as [_ <-].
    apply list_elem_of_In, in_map. by apply list_elem_of_In.
  - intros route Hun twice. unfold twice, replay. simpl.
    destruct (routeHandler_unmatched initialReplayState route Hun) as [-> _].
    destruct (routeHandler_unmatched (unknown initialReplayState route) route Hun)
      as [-> _].
    rewrite (unknown_fresh initialReplayState) by set_solver.
    rewrite unknown_seen by (simpl; set_solver). done.
Qed.
End Unmatched.

Lemma unmatched_logged_once_and_aborted_witness :
  unmatched storage "storage" viewerCss snapshotRootOnly "c1" requestMissing = true
  /\ console (replay storage "storage" viewerCss snapshotRootOnly "c1"
               [requestMissing; requestCss; requestMissing])
     = ["Request to unknown url: https://a/missing.png"]
  /\ {| st_request := requestMissing; st_outcome := Abort |}
       ∈ intercepted (replay storage "storage" viewerCss snapshotRootOnly "c1"
                        [requestMissing; requestCss; requestMissing])
  /\ console (replay storage "storage" viewerCss snapshotRootOnly "c1"
               [requestMissing; requestMissing])
     = ["Request to unknown url: https://a/missing.png"].
Proof.
  assert (Hun : unmatched storage "storage" viewerCss snapshotRootOnly "c1"
                  requestMissing = true) by reflexivity.
  destruct (unmatched_logged_once_and_aborted storage "storage" viewerCss
              snapshotRootOnly "c1" [requestMissing; requestCss; requestMissing])
    as (Hconsole & _ & _ & _ & Habort & Htwice).
  assert (Hin : requestMissing ∈ [requestMissing; requestCss; requestMissing]) by left.
  exact (conj Hun (conj Hconsole (conj (Habort requestMissing Hin Hun)
           (proj1 (Htwice requestMissing Hun))))).
Defined.

(** * Further properties of the code *)

Import MoreSamples.

(** ** Lines of a trace file *)

Lemma splitLines_not_nil s : splitLines s <> [].
Proof.
  destruct s as [|c s]; simpl; [done|].
  case_bool_decide; [done|]. by destruct (splitLines s).
Qed.

Lemma splitLines_newline a b :
  splitLines (a +:+ String "010" b) = splitLines a ++ splitLines b.
Proof.
  induction a as [|c a IH]; [done|].
  rewrite append_cons. simpl. case_bool_decide.
  - by rewrite IH.
  - rewrite IH. pose proof (splitLines_not_nil a).
    by destruct (splitLines a).
Qed.

Lemma traceLines_newline a b :
  traceLines (a +:+ String "010" b) = traceLines a ++ traceLines b.
Proof.
  unfold traceLines. rewrite splitLines_newline, map_app. apply List.filter_app.
Qed.

Lemma trimStart_whitespace s :
  Forall (fun c => isWhiteSpace c = true) (String.list_ascii_of_string s) ->
  trimStart s = "".
Proof.
  induction s as [|c s IH]; simpl; [done|].
  intros [Hc Hs]%Forall_cons. rewrite Hc. by apply IH.
Qed.

Lemma splitLines_pieces (P : ascii -> Prop) s :
  Forall P (String.list_ascii_of_string s) ->
  Forall (fun line => Forall P (String.list_ascii_of_string line)) (splitLines s).
Proof.
  induction s as [|c s IH]; simpl.
  - intros _. by repeat constructor.
  - intros [Hc Hs]%Forall_cons. specialize (IH Hs).
    case_bool_decide; [by repeat constructor|].
    pose proof (splitLines_not_nil s) as Hne.
    destruct (splitLines s) as [|l ls]; [done|].
    apply Forall_cons in IH as [Hl Hls].
    constructor; [by constructor | done].
Qed.

Lemma traceLines_whitespace s :
  Forall (fun c => isWhiteSpace c = true) (String.list_ascii_of_string s) ->
  traceLines s = [].
Proof.
  intros Hs. unfold traceLines.
  induction (splitLines_pieces _ s Hs) as [|line ls Hline _ IH]; simpl; [done|].
  unfold trim at 1. rewrite (trimStart_whitespace _ Hline). simpl. exact IH.
Qed.

Section ParseLinesMore.
Variable JSON_parse : string -> option TraceEvent.

Lemma parseLines_app l1 l2 e1 e2 :
  parseLines JSON_parse l1 = Ok e1 ->
  parseLines JSON_parse l2 = Ok e2 ->
  parseLines JSON_parse (l1 ++ l2) = Ok (e1 ++ e2).
Proof.
  revert e1. induction l1 as [|line l1 IH]; simpl; intros e1.
  - by intros [= <-].
  - destruct (JSON_parse line); [|done].
    destruct (parseLines JSON_parse l1) as [events|]; [|done].
    intros [= <-] H2. by rewrite (IH events eq_refl H2).
Qed.

Lemma load_Ok v traceFile traceContent v' :
  load JSON_parse v traceFile traceContent = (v', Ok tt) ->
  exists events,
    parseLines JSON_parse (traceLines traceContent) = Ok events
    /\ v' = pushTrace (indexEvents v events) traceFile events.
Proof.
  unfold load.
  destruct (parseLines JSON_parse (traceLines traceContent)) as [events|]; [|done].
  intros [= <-]. by exists events.
Qed.

Lemma load_result v traceFile traceContent :
  (exists events, parseLines JSON_parse (traceLines traceContent) = Ok events
     /\ load JSON_parse v traceFile traceContent
        = (pushTrace (indexEvents v events) traceFile events, Ok tt))
  \/ (parseLines JSON_parse (traceLines traceContent) = Throw SyntaxError
      /\ load JSON_parse v traceFile traceContent = (v, Throw SyntaxError)).
Proof.
  unfold load.
  destruct (parseLines JSON_parse (traceLines traceContent)) as [events|e] eqn:Hp.
  - left. by exists events.
  - right. assert (e = SyntaxError) as ->; [|done].
    clear -Hp. revert Hp. induction (traceLines traceContent) as [|l ls IH]; simpl; [done|].
    destruct (JSON_parse l); [|by intros [= <-]].
    destruct (parseLines JSON_parse ls); [done|]. intros [= <-]. by apply IH.
Qed.
End ParseLinesMore.

Lemma indexEvents_app v e1 e2 :
  indexEvents v (e1 ++ e2) = indexEvents (indexEvents v e1) e2.
Proof. unfold indexEvents. apply foldl_app. Qed.

Lemma indexEvent_traces v event : _traces (indexEvent v event) = _traces v.
Proof. by destruct event. Qed.

Lemma indexEvents_traces events : forall v, _traces (indexEvents v events) = _traces v.
Proof.
  induction events as [|ev events IH]; intros v; [done|].
  unfold indexEvents in *. simpl. by rewrite IH, indexEvent_traces.
Qed.

Lemma indexEvents_pushTrace events : forall v traceFile evs,
  indexEvents (pushTrace v traceFile evs) events
  = pushTrace (indexEvents v events) traceFile evs.
Proof.
  induction events as [|ev events IH]; intros v traceFile evs; [done|].
  unfold indexEvents in *. simpl. rewrite <- IH. f_equal. by destruct ev.
Qed.

(** ** What a successful [load] adds *)

Lemma contextsAt_app id l1 l2 :
  contextsAt id (l1 ++ l2) = contextsAt id l1 ++ contextsAt id l2.
Proof. unfold contextsAt. apply flat_map_app. Qed.

Lemma browsersOf_app l1 l2 : browsersOf (l1 ++ l2) = browsersOf l1 ++ browsersOf l2.
Proof. unfold browsersOf. apply flat_map_app. Qed.

Lemma indexEvent_contexts v event id :
  _contextEventById (indexEvent v event) !! id
  = match last (contextsAt id [event]) with
    | Some e => Some e
    | None => _contextEventById v !! id
    end.
Proof.
  destruct event as [e| | | |e|e]; simpl; try done.
  case_bool_decide as Hid; simpl.
  - subst id. by rewrite lookup_insert_eq.
  - by rewrite lookup_insert_ne.
Qed.

Lemma indexEvents_contexts events : forall v id,
  _contextEventById (indexEvents v events) !! id
  = match last (contextsAt id events) with
    | Some e => Some e
    | None => _contextEventById v !! id
    end.
Proof.
  induction events as [|ev events IH]; intros v id; [done|].
  change (ev :: events) with ([ev] ++ events).
  rewrite indexEvents_app, IH, contextsAt_app, last_app.
  destruct (last (contextsAt id events)); [done|].
  apply indexEvent_contexts.
Qed.

Lemma indexEvents_browserNames events : forall v,
  _browserNames (indexEvents v events)
  = list_to_set (browsersOf events) ∪ _browserNames v.
Proof.
  induction events as [|ev events IH]; intros v.
  - simpl. set_solver.
  - change (ev :: events) with ([ev] ++ events).
    rewrite indexEvents_app, IH, browsersOf_app, list_to_set_app_L.
    destruct ev; simpl; set_solver.
Qed.

(** X1.  A [load] that returns appends one trace entry holding the events
    of the file in line order, and appends to the list stored under each
    URL the file's Resource events recorded under that URL, in line order
    and after those of earlier loads: nothing is reordered, nothing is
    deduplicated. *)
Theorem load_appends_in_order (JSON_parse : string -> option TraceEvent)
    (v : TraceViewer) (traceFile traceContent : string) (v' : TraceViewer) :
  load JSON_parse v traceFile traceContent = (v', Ok tt) ->
  exists events,
    Forall2 (fun line event => JSON_parse line = Some event)
            (traceLines traceContent) events
    /\ _traces v' = _traces v ++ [(traceFile, events)]
    /\ forall url,
         default [] (_resourceEventsByUrl v' !! url)
         = default [] (_resourceEventsByUrl v !! url) ++ resourcesAt url events.
Proof.
  intros (events & Hparse & ->)%load_Ok. exists events.
  split; [by apply parseLines_Ok|]. split.
  - simpl. by rewrite indexEvents_traces.
  - intros url. simpl. apply indexEvents_resources.
Qed.

(** X2.  After a [load] that returns, the context table maps a contextId
    to the last context-created event of the file with that id, and to
    what it held before when the file has none; the browser names are
    those known before together with those of the file's context-created
    events. *)
Theorem load_context_table (JSON_parse : string -> option TraceEvent)
    (v : TraceViewer) (traceFile traceContent : string) (v' : TraceViewer) :
  load JSON_parse v traceFile traceContent = (v', Ok tt) ->
  exists events,
    parseLines JSON_parse (traceLines traceContent) = Ok events
    /\ (forall contextId,
          _contextEventById v' !! contextId
          = match last (contextsAt contextId events) with
            | Some e => Some e
            | None => _contextEventById v !! contextId
            end)
    /\ _browserNames v' = list_to_set (browsersOf events) ∪ _browserNames v.
Proof.
  intros (events & Hparse & ->)%load_Ok. exists events.
  split; [done|]. split.
  - intros contextId. simpl. apply indexEvents_contexts.
  - simpl. apply indexEvents_browserNames.
Qed.

Lemma load_appends_in_order_witness :
  let content := line_resPlain +:+ newline +:+ line_ctx1 +:+ newline +:+ line_resPlain in
  let v' := (load sample_parse viewerCss "trace1" content).1 in
  load sample_parse viewerCss "trace1" content = (v', Ok tt)
  /\ exists events,
       Forall2 (fun line event => sample_parse line = Some event)
               (traceLines content) events
       /\ _traces v' = _traces viewerCss ++ [("trace1", events)]
       /\ forall url,
            default [] (_resourceEventsByUrl v' !! url)
            = default [] (_resourceEventsByUrl viewerCss !! url)
              ++ resourcesAt url events.
Proof.
  intros content v'.
  assert (Hload : load sample_parse viewerCss "trace1" content = (v', Ok tt))
    by (vm_compute; reflexivity).
  split; [exact Hload|].
  exact (load_appends_in_order sample_parse viewerCss "trace1" content v' Hload).
Defined.

Lemma load_context_table_witness :
  let content := line_ctx1 +:+ newline +:+ line_resPlain in
  let v' := (load sample_parse newTraceViewer "trace1" content).1 in
  load sample_parse newTraceViewer "trace1" content = (v', Ok tt)
  /\ exists events,
       parseLines sample_parse (traceLines content) = Ok events
       /\ (forall contextId,
             _contextEventById v' !! contextId
             = match last (contextsAt contextId events) with
               | Some e => Some e
               | None => _contextEventById newTraceViewer !! contextId
               end)
       /\ _browserNames v' = list_to_set (browsersOf events) ∪ _browserNames newTraceViewer.
Proof.
  intros content v'.
  assert (Hload : load sample_parse newTraceViewer "trace1" content = (v', Ok tt))
    by (vm_compute; reflexivity).
  split; [exact Hload|].
  exact (load_context_table sample_parse newTraceViewer "trace1" content v' Hload).
Defined.

(** ** Invariants of the tables *)

Lemma indexEvent_wellKeyed v event : wellKeyed v -> wellKeyed (indexEvent v event).
Proof.
  intros [Hctx Hres]. destruct event as [e| | | |e|e]; try done; split; simpl.
  - intros id e' Hlook. destruct (decide (cc_contextId e = id)) as [<-|Hne].
    + rewrite lookup_insert_eq in Hlook. injection Hlook as <-.
      split; [done | set_solver].
    + rewrite lookup_insert_ne in Hlook by done.
      destruct (Hctx id e' Hlook) as [? ?]. split; [done | set_solver].
  - exact Hres.
  - exact Hctx.
  - intros url l Hlook. destruct (decide (res_url e = url)) as [<-|Hne].
    + rewrite lookup_insert_eq in Hlook. injection Hlook as <-.
      split; [by destruct (default [] _)|].
      apply Forall_app. split; [|by repeat constructor].
      destruct (_resourceEventsByUrl v !! res_url e) as [l0|] eqn:Hl0; simpl; [|done].
      by destruct (Hres _ _ Hl0).
    + rewrite lookup_insert_ne in Hlook by done. by apply Hres.
Qed.

Lemma indexEvents_wellKeyed events : forall v,
  wellKeyed v -> wellKeyed (indexEvents v events).
Proof.
  induction events as [|ev events IH]; intros v Hv; [done|].
  unfold indexEvents in *. simpl. by apply IH, indexEvent_wellKeyed.
Qed.

Lemma load_wellKeyed JSON_parse v traceFile traceContent :
  wellKeyed v -> wellKeyed (load JSON_parse v traceFile traceContent).1.
Proof.
  intros Hv.
  destruct (load_result JSON_parse v traceFile traceContent)
    as [(events & _ & ->)|[_ ->]]; [|done].
  simpl. destruct (indexEvents_wellKeyed events v Hv) as [Hc Hr]. by split.
Qed.

(** X3.  Whatever files are loaded into a new viewer, and whether or not
    one of them fails to parse, the tables stay keyed by their entries:
    a context event is stored under its own contextId and its browser is
    among the browser names, and a URL of the resource index holds a
    non-empty list of events recorded under that very URL. *)
Theorem loaded_tables_well_keyed (JSON_parse : string -> option TraceEvent)
    (traceFiles : list (string * string)) :
  wellKeyed (showTraceViewer_load JSON_parse newTraceViewer traceFiles).1.
Proof.
  assert (Hnew : wellKeyed newTraceViewer) by (split; intros ? ? [=]).
  revert Hnew. generalize newTraceViewer.
  induction traceFiles as [|[traceFile traceContent] rest IH]; intros v Hv; [done|].
  simpl. pose proof (load_wellKeyed JSON_parse v traceFile traceContent Hv) as Hv'.
  destruct (load JSON_parse v traceFile traceContent) as [v' [[]|e]]; simpl in *.
  - by apply IH.
  - done.
Qed.

(** ** Loading several files *)

Section LoadingSeveral.
Variable JSON_parse : string -> option TraceEvent.

Lemma showTraceViewer_load_good good : forall v,
  Forall (fun file => Forall (fun line => is_Some (JSON_parse line))
                             (traceLines file.2)) good ->
  (showTraceViewer_load JSON_parse v good).2 = Ok tt
  /\ map fst (_traces (showTraceViewer_load JSON_parse v good).1)
     = map fst (_traces v) ++ map fst good.
Proof.
  induction good as [|[traceFile traceContent] good IH]; intros v Hgood; simpl.
  - by rewrite app_nil_r.
  - apply Forall_cons in Hgood as [Hfile Hgood].
    destruct (parseLines_total JSON_parse _ Hfile) as [events Hparse].
    unfold load. simpl in Hparse. rewrite Hparse.
    destruct (IH (pushTrace (indexEvents v events) traceFile events) Hgood)
      as [Hok Hnames].
    split; [exact Hok|]. rewrite Hnames. simpl.
    by rewrite indexEvents_traces, map_app, <- app_assoc.
Qed.

Lemma showTraceViewer_load_app l1 l2 : forall v,
  (showTraceViewer_load JSON_parse v l1).2 = Ok tt ->
  showTraceViewer_load JSON_parse v (l1 ++ l2)
  = showTraceViewer_load JSON_parse (showTraceViewer_load JSON_parse v l1).1 l2.
Proof.
  induction l1 as [|[traceFile traceContent] l1 IH]; intros v; simpl; [done|].
  destruct (load JSON_parse v traceFile traceContent) as [v' [[]|e]]; simpl.
  - apply IH.
  - done.
Qed.

(** X4.  The loading loop stops at the first file with a line that is not
    well-formed JSON: the files before it stay loaded, one trace entry
    each and in order, the failing file and the files after it leave no
    trace, and the parse error is what the loop throws. *)
Theorem loading_stops_at_first_malformed (v : TraceViewer)
    (good : list (string * string)) (traceFile traceContent : string)
    (rest : list (string * string)) :
  Forall (fun file => Forall (fun line => is_Some (JSON_parse line))
                             (traceLines file.2)) good ->
  (exists line, line ∈ traceLines traceContent /\ JSON_parse line = None) ->
  showTraceViewer_load JSON_parse v (good ++ (traceFile, traceContent) :: rest)
  = ((showTraceViewer_load JSON_parse v good).1, Throw SyntaxError)
  /\ (showTraceViewer_load JSON_parse v good).2 = Ok tt
  /\ map fst (_traces (showTraceViewer_load JSON_parse v
                         (good ++ (traceFile, traceContent) :: rest)).1)
     = map fst (_traces v) ++ map fst good.
Proof.
  intros Hgood Hbad.
  destruct (showTraceViewer_load_good good v Hgood) as [Hok Hnames].
  assert (Hall : showTraceViewer_load JSON_parse v
                   (good ++ (traceFile, traceContent) :: rest)
                 = ((showTraceViewer_load JSON_parse v good).1, Throw SyntaxError)).
  { rewrite showTraceViewer_load_app by done. simpl.
    unfold load. by rewrite (parseLines_malformed JSON_parse _ Hbad). }
  split; [exact Hall|]. split; [exact Hok|]. by rewrite Hall.
Qed.

(** X5.  Loading the contents of two files joined by a line feed as one
    file leaves the resource index, the context table and the browser
    names as loading the first and then the second does; only the trace
    entries differ. *)
Theorem load_joined_files (v : TraceViewer) (fileA contentA fileB contentB file : string)
    (vA vB : TraceViewer) :
  load JSON_parse v fileA contentA = (vA, Ok tt) ->
  load JSON_parse vA fileB contentB = (vB, Ok tt) ->
  exists vAB,
    load JSON_parse v file (contentA +:+ String "010" contentB) = (vAB, Ok tt)
    /\ _resourceEventsByUrl vAB = _resourceEventsByUrl vB
    /\ _contextEventById vAB = _contextEventById vB
    /\ _browserNames vAB = _browserNames vB.
Proof.
  intros (eA & HpA & ->)%load_Ok (eB & HpB & ->)%load_Ok.
  unfold load. rewrite traceLines_newline, (parseLines_app _ _ _ _ _ HpA HpB).
  eexists. split; [reflexivity|].
  rewrite indexEvents_app, indexEvents_pushTrace. by simpl.
Qed.

(** X6.  A file of white space only, the empty file included, loads
    whatever the parser accepts: it adds a trace entry without events
    and changes no table. *)
Theorem load_blank_file (v : TraceViewer) (traceFile traceContent : string) :
  Forall (fun c => isWhiteSpace c = true) (String.list_ascii_of_string traceContent) ->
  load JSON_parse v traceFile traceContent
  = ({| _traces := _traces v ++ [(traceFile, [])];
        _browserNames := _browserNames v;
        _resourceEventsByUrl := _resourceEventsByUrl v;
        _contextEventById := _contextEventById v |}, Ok tt).
Proof.
  intros Hblank. unfold load. by rewrite (traceLines_whitespace _ Hblank).
Qed.
End LoadingSeveral.

(** ** The table of [show], entry by entry *)

Section ContextTableMore.
Variable v : TraceViewer.
Variable browserName : string.

Lemma listedActions_app k l1 l2 :
  listedActions v browserName k (l1 ++ l2)
  = listedActions v browserName k l1 ++ listedActions v browserName k l2.
Proof. unfold listedActions. apply flat_map_app. Qed.

Lemma listedKeys_app l1 l2 :
  listedKeys v browserName (l1 ++ l2)
  = listedKeys v browserName l1 ++ listedKeys v browserName l2.
Proof. unfold listedKeys. apply flat_map_app. Qed.

Lemma listedActions_single a k :
  listedActions v browserName k [Action a]
  = if bool_decide (actionKey v browserName a = Some k) then [a] else [].
Proof. unfold listedActions. simpl. by rewrite app_nil_r. Qed.

Lemma listedKeys_single a :
  listedKeys v browserName [Action a] = option_list (actionKey v browserName a).
Proof. unfold listedKeys. simpl. by rewrite app_nil_r. Qed.

Lemma showEvent_skipped (st : ShowState) event :
  listedKeys v browserName [event] = [] ->
  (forall k, listedActions v browserName k [event] = []) ->
  tableOk st.2 ->
  tableOk st.2
  /\ (forall k, actionsAt st.2 k
                = actionsAt st.2 k ++ listedActions v browserName k [event])
  /\ dom st.2 = dom st.2 ∪ list_to_set (listedKeys v browserName [event]).
Proof.
  intros Hk Ha Hok. split; [done|]. split.
  - intros k. by rewrite Ha, app_nil_r.
  - rewrite Hk. set_solver.
Qed.

Lemma showEvent_listed (st : ShowState) a key data :
  actionKey v browserName a = Some key ->
  tableOk st.2 ->
  actions data = actionsAt st.2 key ++ [a] ->
  inheritedKey key = false ->
  tableOk (<[ key := data ]> st.2)
  /\ (forall k, actionsAt (<[ key := data ]> st.2) k
                = actionsAt st.2 k ++ listedActions v browserName k [Action a])
  /\ dom (<[ key := data ]> st.2)
     = dom st.2 ∪ list_to_set (listedKeys v browserName [Action a]).
Proof.
  intros Hkey [Hinh Hne] Hacts Hni. split; [split|split].
  - intros k Hk. destruct (decide (key = k)) as [<-|Hne'];
      [congruence | rewrite lookup_insert_ne by done; by apply Hinh].
  - intros k d. destruct (decide (key = k)) as [<-|Hne'].
    + rewrite lookup_insert_eq. intros [= <-]. rewrite Hacts.
      by destruct (actionsAt st.2 key).
    + rewrite lookup_insert_ne by done. apply Hne.
  - intros k. rewrite listedActions_single, Hkey. unfold actionsAt at 1.
    destruct (decide (key = k)) as [<-|Hne'].
    + rewrite lookup_insert_eq. simpl. by rewrite bool_decide_eq_true_2.
    + rewrite lookup_insert_ne by done.
      rewrite bool_decide_eq_false_2 by congruence. by rewrite app_nil_r.
  - rewrite dom_insert_L, listedKeys_single, Hkey. simpl. set_solver.
Qed.

Lemma showEvent_Ok traceFile st event st' :
  showEvent v browserName traceFile st event = Ok st' ->
  tableOk st.2 ->
  throwsOn v browserName event = false
  /\ tableOk st'.2
  /\ (forall k, actionsAt st'.2 k
                = actionsAt st.2 k ++ listedActions v browserName k [event])
  /\ dom st'.2 = dom st.2 ∪ list_to_set (listedKeys v browserName [event]).
Proof.
  intros Hev Hok.
  destruct event as [e| | | |e|a]; simpl in Hev;
    try (injection Hev as <-; split; [done|]; by apply showEvent_skipped).
  unfold throwsOn.
  destruct (_contextEventById v !! act_contextId a) as [ce|] eqn:Hce; [|done].
  destruct (decide (cc_browserName ce = browserName)) as [Hb|Hb].
  - rewrite (bool_decide_eq_true_2 _ Hb) in *. simpl in *.
    assert (Hkey : actionKey v browserName a = Some (cc_contextId ce)).
    { unfold actionKey. by rewrite Hce, bool_decide_eq_true_2. }
    destruct (st.2 !! cc_contextId ce) as [data|] eqn:Hdata.
    + injection Hev as <-. simpl.
      assert (Hni : inheritedKey (cc_contextId ce) = false).
      { destruct (inheritedKey (cc_contextId ce)) eqn:Hi; [|done].
        destruct Hok as [Hinh _]. by rewrite (Hinh _ Hi) in Hdata. }
      split; [exact Hni|].
      apply showEvent_listed; try done.
      unfold actionsAt. by rewrite Hdata.
    + destruct (inheritedKey (cc_contextId ce)) eqn:Hi; [done|].
      injection Hev as <-. simpl. split; [done|].
      apply showEvent_listed; try done.
      unfold actionsAt. by rewrite Hdata.
  - rewrite (bool_decide_eq_false_2 _ Hb) in *. simpl in *.
    injection Hev as <-. split; [done|].
    assert (Hkey : actionKey v browserName a = None).
    { unfold actionKey. by rewrite Hce, bool_decide_eq_false_2. }
    apply (showEvent_skipped st (Action a)); [| |done].
    + by rewrite listedKeys_single, Hkey.
    + intros k. by rewrite listedActions_single, Hkey.
Qed.

Lemma showEvent_total traceFile st event :
  tableOk st.2 -> throwsOn v browserName event = false ->
  exists st', showEvent v browserName traceFile st event = Ok st'.
Proof.
  intros [Hinh _] Hthrow. destruct event as [e| | | |e|a]; simpl; eauto.
  unfold throwsOn in Hthrow.
  destruct (_contextEventById v !! act_contextId a) as [ce|]; [|done].
  destruct (bool_decide (cc_browserName ce = browserName)); simpl in *; eauto.
  rewrite Hthrow. destruct (st.2 !! cc_contextId ce); eauto.
Qed.
Lemma showEvents_Ok traceFile events : forall st st',
  showEvents v browserName traceFile st events = Ok st' ->
  tableOk st.2 ->
  Forall (fun event => throwsOn v browserName event = false) events
  /\ tableOk st'.2
  /\ (forall k, actionsAt st'.2 k
                = actionsAt st.2 k ++ listedActions v browserName k events)
  /\ dom st'.2 = dom st.2 ∪ list_to_set (listedKeys v browserName events).
Proof.
  induction events as [|event events IH]; intros st st'; cbn [showEvents].
  - intros [= <-] Hok. split; [done|]. split; [done|]. split.
    + intros k. by rewrite app_nil_r.
    + unfold listedKeys. simpl. set_solver.
  - destruct (showEvent v browserName traceFile st event) as [st1|] eqn:Hev; [|done].
    intros Hrest Hok.
    destruct (showEvent_Ok _ _ _ _ Hev Hok) as (Hthrow & Hok1 & Hacts1 & Hdom1).
    destruct (IH _ _ Hrest Hok1) as (Hthrows & Hok' & Hacts' & Hdom').
    split; [by constructor|]. split; [done|]. split.
    + intros k. change (event :: events) with ([event] ++ events).
      by rewrite Hacts', Hacts1, listedActions_app, app_assoc.
    + change (event :: events) with ([event] ++ events).
      rewrite Hdom', Hdom1, listedKeys_app, list_to_set_app_L. set_solver.
Qed.

Lemma showEvents_total traceFile events : forall st,
  tableOk st.2 ->
  Forall (fun event => throwsOn v browserName event = false) events ->
  exists st', showEvents v browserName traceFile st events = Ok st'.
Proof.
  induction events as [|event events IH]; intros st Hok Hthrows; simpl; [by eexists|].
  apply Forall_cons in Hthrows as [Hthrow Hthrows].
  destruct (showEvent_total traceFile st event Hok Hthrow) as [st1 Hev].
  rewrite Hev. apply IH; [|done].
  by destruct (showEvent_Ok _ _ _ _ Hev Hok) as (_ & Hok1 & _).
Qed.

Lemma showTraces_Ok traces : forall table table',
  showTraces v browserName table traces = Ok table' ->
  tableOk table ->
  Forall (fun event => throwsOn v browserName event = false) (flat_map snd traces)
  /\ tableOk table'
  /\ (forall k, actionsAt table' k
                = actionsAt table k
                  ++ listedActions v browserName k (flat_map snd traces))
  /\ dom table'
     = dom table ∪ list_to_set (listedKeys v browserName (flat_map snd traces)).
Proof.
  induction traces as [|[traceFile events] traces IH]; intros table table';
    cbn [showTraces flat_map snd].
  - intros [= <-] Hok. split; [done|]. split; [done|]. split.
    + intros k. by rewrite app_nil_r.
    + unfold listedKeys. simpl. set_solver.
  - destruct (showEvents v browserName traceFile (0, table) events) as [st|] eqn:Hevs;
      [|done].
    intros Hrest Hok.
    destruct (showEvents_Ok _ _ _ _ Hevs Hok) as (Hthrows1 & Hok1 & Hacts1 & Hdom1).
    destruct (IH _ _ Hrest Hok1) as (Hthrows & Hok' & Hacts' & Hdom').
    cbn [fst snd] in *. split; [by apply Forall_app|]. split; [done|]. split.
    + intros k. by rewrite Hacts', Hacts1, listedActions_app, app_assoc.
    + rewrite Hdom', Hdom1, listedKeys_app, list_to_set_app_L. set_solver.
Qed.

Lemma showTraces_total traces : forall table,
  tableOk table ->
  Forall (fun event => throwsOn v browserName event = false) (flat_map snd traces) ->
  exists table', showTraces v browserName table traces = Ok table'.
Proof.
  induction traces as [|[traceFile events] traces IH]; intros table Hok Hthrows; simpl;
    [by eexists|].
  simpl in Hthrows. apply Forall_app in Hthrows as [Hthrows1 Hthrows].
  destruct (showEvents_total traceFile events (0, table) Hok Hthrows1) as [st Hevs].
  rewrite Hevs. apply IH; [|done].
  by destruct (showEvents_Ok _ _ _ _ Hevs Hok) as (_ & Hok1 & _).
Qed.

Lemma tableOk_empty : tableOk ∅.
Proof. split; intros k; [done|]. by intros d [=]. Qed.

(** X7.  Building the context table for a browser succeeds exactly when
    no event of the loaded traces makes the loop throw: every Action
    event names a context that some loaded trace created, and no action
    of the requested browser belongs to a context whose id is a property
    name that object literals inherit, such as constructor. *)
Theorem show_succeeds_iff :
  (exists table, show_contextData v browserName = Ok table)
  <-> Forall (fun event => throwsOn v browserName event = false) (allEvents v).
Proof.
  unfold show_contextData, allEvents. split.
  - intros [table Hshow].
    by destruct (showTraces_Ok _ _ _ Hshow tableOk_empty) as (Hthrows & _).
  - apply showTraces_total, tableOk_empty.
Qed.

(** X8.  When the table is built, the entry of a key lists exactly the
    actions of the loaded traces whose context event has the requested
    browser name and that contextId, in the order of the traces and of
    the events within them; a key without such an action has no entry,
    so that actions of other browsers appear nowhere. *)
Theorem show_lists_actions (table : gmap string ContextData) :
  show_contextData v browserName = Ok table ->
  forall key,
    actions <$> table !! key
    = match listedActions v browserName key (allEvents v) with
      | [] => None
      | listed => Some listed
      end.
Proof.
  unfold show_contextData, allEvents. intros Hshow key.
  destruct (showTraces_Ok _ _ _ Hshow tableOk_empty) as (_ & [_ Hne] & Hacts & _).
  specialize (Hacts key). unfold actionsAt in Hacts.
  rewrite lookup_empty in Hacts. simpl in Hacts. rewrite <- Hacts.
  destruct (table !! key) as [d|] eqn:Hd; simpl; [|done].
  specialize (Hne key d Hd). by destruct (actions d).
Qed.
Lemma showEvent_label_step traceFile st event st' :
  showEvent v browserName traceFile st event = Ok st' ->
  (forall k d, st.2 !! k = Some d -> label <$> st'.2 !! k = Some (label d))
  /\ ((listedKeys v browserName [event] = [] /\ st' = st)
      \/ (exists key, listedKeys v browserName [event] = [key]
            /\ (key ∈ dom st.2) /\ st'.1 = st.1 /\ dom st'.2 = dom st.2)
      \/ (exists key, listedKeys v browserName [event] = [key]
            /\ (key ∉ dom st.2) /\ st'.1 = S st.1
            /\ dom st'.2 = {[ key ]} ∪ dom st.2
            /\ label <$> st'.2 !! key
               = Some (traceFile +:+ " :: context" +:+ numberToString (S st.1)))).
Proof.
  intros Hev.
  destruct event as [e| | | |e|a]; simpl in Hev;
    try (injection Hev as <-; split; [by intros k d ->|]; by left).
  destruct (_contextEventById v !! act_contextId a) as [ce|] eqn:Hce; [|done].
  destruct (decide (cc_browserName ce = browserName)) as [Hb|Hb].
  - rewrite (bool_decide_eq_true_2 _ Hb) in Hev. simpl in Hev.
    assert (Hkey : listedKeys v browserName [Action a] = [cc_contextId ce]).
    { rewrite listedKeys_single. unfold actionKey.
      by rewrite Hce, bool_decide_eq_true_2. }
    destruct (st.2 !! cc_contextId ce) as [data|] eqn:Hdata.
    + injection Hev as <-. simpl. split.
      * intros k d Hk. destruct (decide (cc_contextId ce = k)) as [<-|Hne].
        -- rewrite lookup_insert_eq. simpl. congruence.
        -- rewrite lookup_insert_ne by done. by rewrite Hk.
      * right. left. exists (cc_contextId ce).
        assert (cc_contextId ce ∈ dom st.2) by (apply elem_of_dom; eauto).
        rewrite dom_insert_L.
        split; [done|]. split; [done|]. split; [done|]. set_solver.
    + destruct (inheritedKey (cc_contextId ce)); [done|].
      injection Hev as <-. simpl. split.
      * intros k d Hk. destruct (decide (cc_contextId ce = k)) as [<-|Hne].
        -- congruence.
        -- rewrite lookup_insert_ne by done. by rewrite Hk.
      * right. right. exists (cc_contextId ce).
        rewrite dom_insert_L, lookup_insert_eq.
        split; [done|]. split; [by apply not_elem_of_dom|]. by repeat split.
  - rewrite (bool_decide_eq_false_2 _ Hb) in Hev. simpl in Hev.
    injection Hev as <-. split; [by intros k d ->|]. left. split; [|done].
    rewrite listedKeys_single. unfold actionKey.
    by rewrite Hce, bool_decide_eq_false_2.
Qed.

Lemma showEvents_labels traceFile events : forall st st',
  showEvents v browserName traceFile st events = Ok st' ->
  st'.1 = st.1 + length (firstOccurrences (dom st.2) (listedKeys v browserName events))
  /\ (forall i key,
        firstOccurrences (dom st.2) (listedKeys v browserName events) !! i = Some key ->
        label <$> st'.2 !! key
        = Some (traceFile +:+ " :: context" +:+ numberToString (st.1 + S i)))
  /\ (forall k d, st.2 !! k = Some d -> label <$> st'.2 !! k = Some (label d)).
Proof.
  induction events as [|event events IH]; intros st st'; cbn [showEvents].
  - intros [= <-]. unfold listedKeys. simpl. split; [lia|]. split; [done|].
    by intros k d ->.
  - destruct (showEvent v browserName traceFile st event) as [st1|] eqn:Hev; [|done].
    intros Hrest.
    destruct (showEvent_label_step _ _ _ _ Hev) as [Hkeep Hstep].
    destruct (IH _ _ Hrest) as (Hn & Hnew & Hold).
    assert (Hkeep' : forall k d, st.2 !! k = Some d ->
                       label <$> st'.2 !! k = Some (label d)).
    { intros k d Hk. specialize (Hkeep k d Hk).
      destruct (st1.2 !! k) as [d1|] eqn:Hd1; [|done].
      injection Hkeep as Hl. rewrite (Hold k d1 Hd1). by rewrite Hl. }
    change (event :: events) with ([event] ++ events). rewrite listedKeys_app.
    destruct Hstep as [[-> ->]|[(key & -> & Hin & Hn1 & Hdom)|(key & -> & Hin & Hn1 & Hdom & Hl)]];
      simpl.
    + done.
    + rewrite (bool_decide_eq_true_2 _ Hin). rewrite <- Hdom, <- Hn1. done.
    + rewrite (bool_decide_eq_false_2 _ Hin). rewrite <- Hdom. simpl.
      split; [lia|]. split; [|done].
      intros [|i] key'; simpl.
      * intros [= <-]. destruct (st1.2 !! key) as [d1|] eqn:Hd1; [|done].
        injection Hl as Hl. rewrite (Hold key d1 Hd1), Hl.
        by replace (st.1 + 1) with (S st.1) by lia.
      * intros Hi. rewrite (Hnew i key' Hi), Hn1.
        by replace (S st.1 + S i) with (st.1 + S (S i)) by lia.
Qed.

Lemma showTraces_keeps_labels traces : forall table table',
  showTraces v browserName table traces = Ok table' ->
  forall k d, table !! k = Some d -> label <$> table' !! k = Some (label d).
Proof.
  induction traces as [|[traceFile events] traces IH]; intros table table';
    cbn [showTraces].
  - by intros [= <-] k d ->.
  - destruct (showEvents v browserName traceFile (0, table) events) as [st|] eqn:Hevs;
      [|done].
    intros Hrest k d Hk.
    destruct (showEvents_labels _ _ _ _ Hevs) as (_ & _ & Hold).
    specialize (Hold k d Hk). simpl in Hold.
    destruct (st.2 !! k) as [d1|] eqn:Hd1; [|done].
    injection Hold as Hl. rewrite (IH _ _ Hrest k d1 Hd1). by rewrite Hl.
Qed.

Lemma showTraces_app l1 l2 : forall table table',
  showTraces v browserName table (l1 ++ l2) = Ok table' ->
  exists table1,
    showTraces v browserName table l1 = Ok table1
    /\ showTraces v browserName table1 l2 = Ok table'.
Proof.
  induction l1 as [|[traceFile events] l1 IH]; intros table table'; simpl.
  - intros H. by exists table.
  - destruct (showEvents v browserName traceFile (0, table) events) as [st|]; [|done].
    apply IH.
Qed.

(** X9.  The label of an entry is the name of the first trace in which an
    action of the context is listed, followed by " :: context" and a
    number: the rank, counted from 1, of the context among those first
    listed in that trace, contexts listed for an earlier trace not
    counting. *)
Theorem show_labels (before after : list (string * list TraceEvent))
    (traceFile : string) (events : list TraceEvent)
    (table : gmap string ContextData) :
  _traces v = before ++ (traceFile, events) :: after ->
  show_contextData v browserName = Ok table ->
  forall i key,
    firstOccurrences (list_to_set (listedKeys v browserName (flat_map snd before)))
                     (listedKeys v browserName events) !! i = Some key ->
    label <$> table !! key
    = Some (traceFile +:+ " :: context" +:+ numberToString (S i)).
Proof.
  unfold show_contextData. intros -> Hshow i key Hi.
  destruct (showTraces_app _ _ _ _ Hshow) as (table1 & Hbefore & Hrest).
  destruct (showTraces_Ok _ _ _ Hbefore tableOk_empty) as (_ & _ & _ & Hdom).
  rewrite dom_empty_L, union_empty_l_L in Hdom.
  cbn [showTraces] in Hrest.
  destruct (showEvents v browserName traceFile (0, table1) events) as [st|] eqn:Hevs;
    [|done].
  destruct (showEvents_labels _ _ _ _ Hevs) as (_ & Hnew & _).
  simpl in Hnew. rewrite Hdom in Hnew. specialize (Hnew i key Hi).
  destruct (st.2 !! key) as [d|] eqn:Hd; [|done].
  injection Hnew as Hl. rewrite (showTraces_keeps_labels _ _ _ Hrest key d Hd).
  by rewrite Hl.
Qed.
End ContextTableMore.

Lemma show_succeeds_iff_witness :
  Forall (fun event => throwsOn viewerTwoBrowsers "chromium" event = false)
         (allEvents viewerTwoBrowsers)
  /\ (exists table, show_contextData viewerTwoBrowsers "chromium" = Ok table)
  /\ ~ Forall (fun event => throwsOn viewerInherited "chromium" event = false)
             (allEvents viewerInherited).
Proof.
  assert (Hall : Forall (fun event => throwsOn viewerTwoBrowsers "chromium" event = false)
                   (allEvents viewerTwoBrowsers)).
  { vm_compute. repeat constructor. }
  split; [exact Hall|]. split.
  - exact (proj2 (show_succeeds_iff viewerTwoBrowsers "chromium") Hall).
  - intros Hno.
    destruct (proj2 (show_succeeds_iff viewerInherited "chromium") Hno) as [table Htable].
    discriminate Htable.
Defined.

Lemma show_lists_actions_witness :
  exists table,
    show_contextData viewerTwoBrowsers "chromium" = Ok table
    /\ actions <$> table !! "c1" = Some [goto "c1"; click "c1"]
    /\ actions <$> table !! "c2" = None.
Proof.
  set (table := match show_contextData viewerTwoBrowsers "chromium" with
                | Ok t => t
                | Throw _ => ∅
                end).
  assert (Hshow : show_contextData viewerTwoBrowsers "chromium" = Ok table)
    by (vm_compute; reflexivity).
  exists table. split; [exact Hshow|]. split.
  - exact (show_lists_actions viewerTwoBrowsers "chromium" table Hshow "c1").
  - exact (show_lists_actions viewerTwoBrowsers "chromium" table Hshow "c2").
Defined.

Lemma show_labels_witness :
  exists table,
    show_contextData viewerThree "chromium" = Ok table
    /\ label <$> table !! "c3" = Some "trace1 :: context1"
    /\ label <$> table !! "c1" = Some "trace1 :: context2".
Proof.
  set (table := match show_contextData viewerThree "chromium" with
                | Ok t => t
                | Throw _ => ∅
                end).
  assert (Hshow : show_contextData viewerThree "chromium" = Ok table)
    by (vm_compute; reflexivity).
  exists table. split; [exact Hshow|]. split.
  - exact (show_labels viewerThree "chromium" [] [] "trace1" eventsThree table
             eq_refl Hshow 0 "c3" eq_refl).
  - exact (show_labels viewerThree "chromium" [] [] "trace1" eventsThree table
             eq_refl Hshow 1 "c1" eq_refl).
Defined.

Lemma loading_stops_at_first_malformed_witness :
  Forall (fun file => Forall (fun line => is_Some (sample_parse line))
                             (traceLines file.2))
         [("trace1", trace_plain); ("trace2", trace_orphan)]
  /\ (exists line, line ∈ traceLines trace_malformed /\ sample_parse line = None)
  /\ map fst (_traces (showTraceViewer_load sample_parse newTraceViewer
                         [("trace1", trace_plain); ("trace2", trace_orphan);
                          ("trace3", trace_malformed); ("trace4", trace_frag)]).1)
     = ["trace1"; "trace2"]
  /\ (showTraceViewer_load sample_parse newTraceViewer
        [("trace1", trace_plain); ("trace2", trace_orphan);
         ("trace3", trace_malformed); ("trace4", trace_frag)]).2
     = Throw SyntaxError.
Proof.
  assert (Hgood : Forall (fun file => Forall (fun line => is_Some (sample_parse line))
                                             (traceLines file.2))
                    [("trace1", trace_plain); ("trace2", trace_orphan)]).
  { vm_compute. repeat constructor; by eexists. }
  assert (Hbad : exists line,
             line ∈ traceLines trace_malformed /\ sample_parse line = None).
  { exists line_malformed. split; [vm_compute; right; left | reflexivity]. }
  destruct (loading_stops_at_first_malformed sample_parse newTraceViewer
              [("trace1", trace_plain); ("trace2", trace_orphan)]
              "trace3" trace_malformed [("trace4", trace_frag)] Hgood Hbad)
    as (Hall & _ & Hnames).
  split; [exact Hgood|]. split; [exact Hbad|]. split; [exact Hnames|].
  exact (f_equal snd Hall).
Defined.

Lemma load_joined_files_witness :
  let vA := (load sample_parse newTraceViewer "a" trace_plain).1 in
  let vB := (load sample_parse vA "b" trace_orphan).1 in
  load sample_parse newTraceViewer "a" trace_plain = (vA, Ok tt)
  /\ load sample_parse vA "b" trace_orphan = (vB, Ok tt)
  /\ exists vAB,
       load sample_parse newTraceViewer "ab" (trace_plain +:+ String "010" trace_orphan)
       = (vAB, Ok tt)
       /\ _resourceEventsByUrl vAB = _resourceEventsByUrl vB
       /\ _contextEventById vAB = _contextEventById vB
       /\ _browserNames vAB = _browserNames vB.
Proof.
  intros vA vB.
  assert (HA : load sample_parse newTraceViewer "a" trace_plain = (vA, Ok tt))
    by (vm_compute; reflexivity).
  assert (HB : load sample_parse vA "b" trace_orphan = (vB, Ok tt))
    by (vm_compute; reflexivity).
  split; [exact HA|]. split; [exact HB|].
  exact (load_joined_files sample_parse newTraceViewer "a" trace_plain "b" trace_orphan
           "ab" vA vB HA HB).
Defined.

Lemma load_blank_file_witness :
  Forall (fun c => isWhiteSpace c = true) (String.list_ascii_of_string blankContent)
  /\ _traces (load sample_parse viewer3 "blank" blankContent).1
     = _traces viewer3 ++ [("blank", [])]
  /\ (load sample_parse viewer3 "blank" blankContent).2 = Ok tt.
Proof.
  assert (Hblank : Forall (fun c => isWhiteSpace c = true)
                     (String.list_ascii_of_string blankContent)).
  { vm_compute. repeat constructor. }
  pose proof (load_blank_file sample_parse viewer3 "blank" blankContent Hblank) as Hload.
  split; [exact Hblank|]. split.
  - exact (f_equal (fun r => _traces r.1) Hload).
  - exact (f_equal snd Hload).
Defined.

(** ** The headers of a served resource *)

Lemma setHeaders_lookup name hs : forall m : gmap string string,
  name <> "__proto__" ->
  foldl setHeader m hs !! name
  = match last (List.filter (fun nv => bool_decide (nv.1 = name)) hs) with
    | Some nv => Some nv.2
    | None => m !! name
    end.
Proof.
  induction hs as [|[n val] hs IH]; intros m Hname; simpl; [done|].
  rewrite IH by done.
  change (setHeader m (n, val))
    with (if bool_decide (n = "__proto__") then m else <[ n := val ]> m).
  destruct (decide (n = name)) as [->|Hne].
  - rewrite (bool_decide_eq_true_2 (name = name)) by done.
    rewrite last_cons. destruct (last _); [done|].
    rewrite bool_decide_eq_false_2 by done. by rewrite lookup_insert_eq.
  - rewrite (bool_decide_eq_false_2 (n = name)) by done.
    destruct (last _); [done|].
    case_bool_decide; [done|]. by rewrite lookup_insert_ne.
Qed.

Lemma setHeaders_proto hs : forall m : gmap string string,
  foldl setHeader m hs !! "__proto__" = m !! "__proto__".
Proof.
  induction hs as [|[n val] hs IH]; intros m; simpl; [done|].
  rewrite IH.
  change (setHeader m (n, val))
    with (if bool_decide (n = "__proto__") then m else <[ n := val ]> m).
  case_bool_decide as Hn; [done|]. by rewrite lookup_insert_ne.
Qed.

Lemma buildHeaders_cross_origin responseHeaders :
  buildHeaders responseHeaders !! "Access-Control-Allow-Origin" = Some "*".
Proof.
  unfold buildHeaders.
  change (setHeader ?m ("Access-Control-Allow-Origin", "*"))
    with (<[ "Access-Control-Allow-Origin" := "*" ]> m).
  by rewrite lookup_insert_eq.
Qed.

(** X10.  The headers sent with a served resource always carry
    Access-Control-Allow-Origin with the value "*", whatever was recorded
    under that name; for every other name but __proto__ they carry the
    value of the last recorded header of that name, names being compared
    by case; a recorded header named __proto__ is never sent. *)
Theorem built_headers (responseHeaders : list (string * string)) :
  buildHeaders responseHeaders !! "Access-Control-Allow-Origin" = Some "*"
  /\ buildHeaders responseHeaders !! "__proto__" = None
  /\ forall name,
       name <> "Access-Control-Allow-Origin" -> name <> "__proto__" ->
       buildHeaders responseHeaders !! name
       = snd <$> last (List.filter (fun nv => bool_decide (nv.1 = name)) responseHeaders).
Proof.
  unfold buildHeaders.
  change (setHeader ?m ("Access-Control-Allow-Origin", "*"))
    with (<[ "Access-Control-Allow-Origin" := "*" ]> m).
  split; [|split].
  - by rewrite lookup_insert_eq.
  - rewrite lookup_insert_ne by done. by rewrite setHeaders_proto.
  - intros name Hacao Hproto. rewrite lookup_insert_ne by done.
    rewrite setHeaders_lookup by done. by destruct (last _).
Qed.

Lemma built_headers_witness :
  let recorded := [ ("Cache-Control", "no-cache"); ("__proto__", "x");
                    ("Access-Control-Allow-Origin", "https://a");
                    ("Cache-Control", "max-age=0");
                    ("cache-control", "private") ] in
  buildHeaders recorded !! "Access-Control-Allow-Origin" = Some "*"
  /\ buildHeaders recorded !! "__proto__" = None
  /\ buildHeaders recorded !! "Cache-Control" = Some "max-age=0"
  /\ buildHeaders recorded !! "cache-control" = Some "private"
  /\ buildHeaders recorded !! "Content-Type" = None.
Proof.
  intros recorded.
  destruct (built_headers recorded) as (Hacao & Hproto & Hother).
  split; [exact Hacao|]. split; [exact Hproto|]. split; [|split].
  - refine (Hother "Cache-Control" _ _); discriminate.
  - refine (Hother "cache-control" _ _); discriminate.
  - refine (Hother "Content-Type" _ _); discriminate.
Defined.

(** ** Requests that are not for a frame document *)

Lemma lastFrameWithUrl_None snapshot url :
  Forall (fun f => fs_url f <> url) (frames snapshot) ->
  lastFrameWithUrl snapshot url = None.
Proof.
  unfold lastFrameWithUrl, framesWithUrl. intros Hnone.
  replace (List.filter _ (frames snapshot)) with (@nil FrameSnapshot); [done|].
  symmetry. induction Hnone as [|f l Hf _ IH]; simpl; [done|].
  by rewrite bool_decide_eq_false_2.
Qed.

Section InterceptorMore.
Variable fsReadFileAsync : string -> option string.
Variable _traceStorageDir : string.
Variable v : TraceViewer.
Variable snapshot : PageSnapshot.
Variable contextId : string.

(** X11.  A request whose URL is no frame's recorded URL and whose
    requesting frame is at a URL that no frame of the snapshot was
    recorded with is handed to [unknown] on the frame table alone: the
    resource index is not looked at, so the route is aborted even when a
    Resource event of the replayed context is stored for the URL. *)
Theorem unknown_frame_aborts (st : ReplayState) (request : Request) :
  Forall (fun f => fs_url f <> req_url request) (frames snapshot) ->
  Forall (fun f => fs_url f <> req_frame_url request) (frames snapshot) ->
  resolve fsReadFileAsync _traceStorageDir v snapshot contextId request
  = (Unknown, [FrameTable])
  /\ routeHandler fsReadFileAsync _traceStorageDir v snapshot contextId st request
     = unknown st request.
Proof.
  intros Hurl Hframe.
  assert (Hres : resolve fsReadFileAsync _traceStorageDir v snapshot contextId request
                 = (Unknown, [FrameTable])).
  { unfold resolve. rewrite !frameBySrc_lookup.
    by rewrite (lastFrameWithUrl_None _ _ Hurl), (lastFrameWithUrl_None _ _ Hframe). }
  split; [exact Hres|]. unfold routeHandler. by rewrite Hres.
Qed.

(** X12.  When the requesting frame has no override for the requested
    URL, or one whose content hash is the empty string, the candidate the
    matcher found is served from its own content hash, with its own
    content type and with its recorded headers completed by the
    cross-origin header. *)
Theorem own_content_without_override (st : ReplayState) (request : Request)
    (frameSnapshot : FrameSnapshot) (resource : NetworkResourceTraceEvent)
    (content : string) :
  frameBySrc snapshot !! req_url request = None ->
  frameBySrc snapshot !! req_frame_url request = Some frameSnapshot ->
  matchResource v contextId (req_url request) (fs_frameId frameSnapshot)
    = Some resource ->
  (forall o, List.find (fun o => bool_decide (ov_url o = req_url request))
                       (fs_resourceOverrides frameSnapshot) = Some o ->
             ov_sha1 o = "") ->
  fsReadFileAsync (path_join _traceStorageDir (res_sha1 resource)) = Some content ->
  routeHandler fsReadFileAsync _traceStorageDir v snapshot contextId st request
  = fulfill st request
      {| contentType := res_contentType resource;
         body := content;
         headers := Some (buildHeaders (res_responseHeaders resource)) |}
  /\ buildHeaders (res_responseHeaders resource) !! "Access-Control-Allow-Origin"
     = Some "*".
Proof.
  intros Hdoc Hframe Hmatch Hover Hread. split; [|apply buildHeaders_cross_origin].
  unfold routeHandler, resolve. rewrite Hdoc, Hframe, Hmatch. simpl.
  unfold _readResource.
  assert (Hor : orElse (ov_sha1 <$> List.find
                          (fun o => bool_decide (ov_url o = req_url request))
                          (fs_resourceOverrides frameSnapshot))
                       (res_sha1 resource) = res_sha1 resource).
  { destruct (List.find _ _) as [o|]; simpl; [|done].
    by rewrite (Hover o eq_refl). }
  by rewrite Hor, Hread.
Qed.

(** X13.  When the matcher finds a candidate but the file of the content
    hash to serve, the override's or else the candidate's, cannot be
    read, the request is handed to [unknown] and its route is aborted:
    a failed read is not retried and does not end the replay. *)
Theorem unreadable_content_aborts (st : ReplayState) (request : Request)
    (frameSnapshot : FrameSnapshot) (resource : NetworkResourceTraceEvent) :
  frameBySrc snapshot !! req_url request = None ->
  frameBySrc snapshot !! req_frame_url request = Some frameSnapshot ->
  matchResource v contextId (req_url request) (fs_frameId frameSnapshot)
    = Some resource ->
  fsReadFileAsync
    (path_join _traceStorageDir
       (orElse (ov_sha1 <$> List.find
                  (fun o => bool_decide (ov_url o = req_url request))
                  (fs_resourceOverrides frameSnapshot))
               (res_sha1 resource))) = None ->
  resolve fsReadFileAsync _traceStorageDir v snapshot contextId request
  = (Unknown, [FrameTable; Matcher; Overrides; BlobStore])
  /\ routeHandler fsReadFileAsync _traceStorageDir v snapshot contextId st request
     = unknown st request
  /\ intercepted (routeHandler fsReadFileAsync _traceStorageDir v snapshot
                    contextId st request)
     = intercepted st ++ [ {| st_request := request; st_outcome := Abort |} ].
Proof.
  intros Hdoc Hframe Hmatch Hread.
  assert (Hres : resolve fsReadFileAsync _traceStorageDir v snapshot contextId request
                 = (Unknown, [FrameTable; Matcher; Overrides; BlobStore])).
  { unfold resolve. rewrite Hdoc, Hframe, Hmatch. simpl.
    unfold _readResource. by rewrite Hread. }
  assert (Hrh : routeHandler fsReadFileAsync _traceStorageDir v snapshot contextId
                  st request = unknown st request).
  { unfold routeHandler. by rewrite Hres. }
  split; [exact Hres|]. split; [exact Hrh|]. rewrite Hrh.
  unfold unknown. simpl. by case_bool_decide.
Qed.
End InterceptorMore.

Lemma unknown_frame_aborts_witness :
  Forall (fun f => fs_url f <> req_url requestForeign) (frames snapshotRootOnly)
  /\ Forall (fun f => fs_url f <> req_frame_url requestForeign) (frames snapshotRootOnly)
  /\ candidatesFor viewerCss (req_url requestForeign) = [resCss]
  /\ routeHandler storage "storage" viewerCss snapshotRootOnly "c1"
       initialReplayState requestForeign
     = unknown initialReplayState requestForeign.
Proof.
  assert (H1 : Forall (fun f => fs_url f <> req_url requestForeign)
                 (frames snapshotRootOnly)) by (repeat constructor; discriminate).
  assert (H2 : Forall (fun f => fs_url f <> req_frame_url requestForeign)
                 (frames snapshotRootOnly)) by (repeat constructor; discriminate).
  exact (conj H1 (conj H2 (conj eq_refl
           (proj2 (unknown_frame_aborts storage "storage" viewerCss snapshotRootOnly
                     "c1" initialReplayState requestForeign H1 H2))))).
Defined.

Lemma own_content_without_override_witness :
  matchResource viewerCss "c1" (req_url requestCssB) (fs_frameId plainFrame)
  = Some resCss
  /\ routeHandler storage "storage" viewerCss snapshotPlain "c1"
       initialReplayState requestCssB
     = fulfill initialReplayState requestCssB
         {| contentType := "text/css";
            body := "body { }";
            headers := Some (buildHeaders [("Cache-Control", "no-cache")]) |}.
Proof.
  split; [reflexivity|].
  refine (proj1 (own_content_without_override storage "storage" viewerCss snapshotPlain
                   "c1" initialReplayState requestCssB plainFrame resCss "body { }"
                   eq_refl eq_refl eq_refl _ eq_refl)).
  intros o Ho. discriminate Ho.
Defined.

Lemma unreadable_content_aborts_witness :
  matchResource viewer3 "c1" (req_url requestApp) (fs_frameId rootFrame) = Some resF
  /\ noStorage (path_join "storage" (res_sha1 resF)) = None
  /\ intercepted (routeHandler noStorage "storage" viewer3 snapshotRootOnly "c1"
                    initialReplayState requestApp)
     = [ {| st_request := requestApp; st_outcome := Abort |} ].
Proof.
  split; [reflexivity|]. split; [reflexivity|].
  exact (proj2 (proj2 (unreadable_content_aborts noStorage "storage" viewer3
                         snapshotRootOnly "c1" initialReplayState requestApp
                         rootFrame resF eq_refl eq_refl eq_refl eq_refl))).
Defined.

(** ** The matcher on arbitrary candidate lists *)

Lemma sameContext_elem contextId l r :
  r ∈ sameContext contextId l <-> r ∈ l /\ res_contextId r = contextId.
Proof.
  unfold sameContext. rewrite !list_elem_of_In, filter_In.
  by rewrite bool_decide_eq_true.
Qed.

Lemma sameContext_idemp contextId l :
  sameContext contextId (sameContext contextId l) = sameContext contextId l.
Proof.
  apply sameContext_all, Forall_forall. intros r Hr.
  by apply sameContext_elem in Hr as [_ ?].
Qed.

(** X14.  Whether matching finds a resource does not depend on the frame
    hint: it finds one exactly when a candidate of the replayed context
    is stored under the normalised URL.  The hint decides which: as soon
    as one of these candidates was recorded for the preferred frame, the
    resource returned was recorded for that frame.  Candidates of other
    contexts, wherever they stand in the list, change nothing. *)
Theorem matcher_found_iff (v : TraceViewer) (contextId url preferredFrameId : string) :
  (is_Some (matchResource v contextId url preferredFrameId)
   <-> exists r, r ∈ candidatesFor v url /\ res_contextId r = contextId)
  /\ ((exists r, r ∈ candidatesFor v url /\ res_contextId r = contextId
                 /\ res_frameId r = preferredFrameId) ->
      exists r, matchResource v contextId url preferredFrameId = Some r
                /\ res_frameId r = preferredFrameId)
  /\ matchResource v contextId url preferredFrameId
     = matchCandidates contextId preferredFrameId
         (sameContext contextId (candidatesFor v url)).
Proof.
  unfold matchResource. rewrite !matchCandidates_spec. unfold match_spec.
  rewrite sameContext_idemp.
  set (l := sameContext contextId (candidatesFor v url)).
  assert (Hl : forall r, r ∈ l <-> r ∈ candidatesFor v url /\ res_contextId r = contextId)
    by (intros r; apply sameContext_elem).
  split; [|split; [|done]].
  - split.
    + intros [r Hr]. exists r. apply Hl.
      destruct (firstOfFrame preferredFrameId l) as [r'|] eqn:Hfind.
      * injection Hr as <-. unfold firstOfFrame in Hfind.
        apply find_some in Hfind as [Hin _]. by apply list_elem_of_In.
      * destruct l as [|x xs]; [done|]. injection Hr as <-. by left.
    + intros (r & Hr). apply Hl in Hr.
      destruct (firstOfFrame preferredFrameId l); [by eexists|].
      destruct l as [|x xs]; [by apply elem_of_nil in Hr | by eexists].
  - intros (r & Hin & Hctx & Hframe).
    assert (Hr : r ∈ l) by (apply Hl; done).
    destruct (firstOfFrame preferredFrameId l) as [r'|] eqn:Hfind.
    + exists r'. split; [done|]. unfold firstOfFrame in Hfind.
      apply find_some in Hfind as [_ Hf]. by apply bool_decide_eq_true_1 in Hf.
    + exfalso. unfold firstOfFrame in Hfind.
      apply list_elem_of_In in Hr. apply (find_none _ _ Hfind r) in Hr.
      by rewrite bool_decide_eq_true_2 in Hr.
Qed.

Lemma matcher_found_iff_witness :
  (exists r, r ∈ candidatesFor viewer2 "https://a/app.js#top" /\ res_contextId r = "c1")
  /\ is_Some (matchResource viewer2 "c1" "https://a/app.js#top" "no-such-frame")
  /\ matchResource viewer2 "c1" "https://a/app.js#top" "no-such-frame"
     = matchCandidates "c1" "no-such-frame" [resA].
Proof.
  assert (Hex : exists r, r ∈ candidatesFor viewer2 "https://a/app.js#top"
                          /\ res_contextId r = "c1").
  { exists resA. split; [vm_compute; right; left | reflexivity]. }
  destruct (matcher_found_iff viewer2 "c1" "https://a/app.js#top" "no-such-frame")
    as (Hfound & _ & Hsame).
  exact (conj Hex (conj (proj2 Hfound Hex) Hsame)).
Defined.

(** ** [removeHash] once more *)

Lemma schemeTail_beforeHash s : schemeTail s = true -> schemeTail (beforeHash s) = true.
Proof.
  induction s as [|c s IH]; simpl; [done|].
  destruct (decide (c = ":"%char)) as [->|Hcolon].
  - done.
  - rewrite (bool_decide_eq_false_2 _ Hcolon).
    destruct (isSchemeChar c) eqn:Hc; [|done]. intros Hs.
    destruct (decide (c = "#"%char)) as [->|Hhash]; [done|].
    rewrite (bool_decide_eq_false_2 _ Hhash). simpl.
    rewrite (bool_decide_eq_false_2 _ Hcolon), Hc. by apply IH.
Qed.

Lemma hasScheme_beforeHash s : hasScheme s = true -> hasScheme (beforeHash s) = true.
Proof.
  destruct s as [|c s]; simpl; [done|].
  intros [Hc Hs]%andb_true_iff.
  destruct (decide (c = "#"%char)) as [->|Hhash]; [done|].
  rewrite (bool_decide_eq_false_2 _ Hhash). simpl.
  by rewrite Hc, schemeTail_beforeHash.
Qed.

Lemma afterHash_beforeHash s : afterHash (beforeHash s) = None.
Proof.
  induction s as [|c s IH]; simpl; [done|].
  case_bool_decide as Hc; [done|]. simpl. by rewrite bool_decide_eq_false_2.
Qed.

Lemma removeHash_parsed s : hasScheme s = true -> removeHash s = beforeHash s.
Proof. intros Hs. unfold removeHash, URL_new. by rewrite Hs. Qed.

Lemma removeHash_unparsed s : hasScheme s = false -> removeHash s = s.
Proof. intros Hs. unfold removeHash, URL_new. by rewrite Hs. Qed.

(** X15.  [removeHash] is idempotent; on a URL that parses its result
    parses too and holds no [#], and it is the URL itself exactly when
    the URL holds no [#]; a string that does not parse is returned as it
    is, [#] included. *)
Theorem removeHash_idempotent (url : string) :
  removeHash (removeHash url) = removeHash url
  /\ (hasScheme url = true ->
      hasScheme (removeHash url) = true
      /\ afterHash (removeHash url) = None
      /\ (removeHash url = url <-> afterHash url = None))
  /\ (hasScheme url = false -> removeHash url = url).
Proof.
  destruct (hasScheme url) eqn:Hs.
  - rewrite (removeHash_parsed url Hs).
    pose proof (hasScheme_beforeHash url Hs) as Hs'.
    split; [|split; [|done]].
    + rewrite (removeHash_parsed _ Hs').
      apply beforeHash_without_hash, afterHash_beforeHash.
    + intros _. split; [done|]. split; [apply afterHash_beforeHash|]. split.
      * intros Heq. rewrite <- Heq. apply afterHash_beforeHash.
      * apply beforeHash_without_hash.
  - rewrite (removeHash_unparsed url Hs). rewrite (removeHash_unparsed url Hs).
    by repeat split.
Qed.

Lemma removeHash_idempotent_witness :
  hasScheme "https://x/y#a#b" = true
  /\ removeHash "https://x/y#a#b" = "https://x/y"
  /\ afterHash (removeHash "https://x/y#a#b") = None
  /\ hasScheme "/relative#a" = false
  /\ removeHash "/relative#a" = "/relative#a".
Proof.
  destruct (removeHash_idempotent "https://x/y#a#b") as (_ & Hparsed & _).
  destruct (removeHash_idempotent "/relative#a") as (_ & _ & Hun).
  destruct (Hparsed eq_refl) as (_ & Hnone & _).
  exact (conj eq_refl (conj eq_refl (conj Hnone (conj eq_refl (Hun eq_refl))))).
Defined.

(** ** The seen-set of a replay *)

Lemma firstOccurrences_elem x urls : forall seen : gset string,
  x ∈ firstOccurrences seen urls <-> x ∈ urls /\ x ∉ seen.
Proof.
  induction urls as [|url urls IH]; intros seen; simpl.
  - split; [by intros ?%elem_of_nil | by intros [?%elem_of_nil _]].
  - destruct (decide (url ∈ seen)) as [Hseen|Hnew].
    + rewrite (bool_decide_eq_true_2 _ Hseen), IH, elem_of_cons. set_solver.
    + rewrite (bool_decide_eq_false_2 _ Hnew), !elem_of_cons, IH.
      rewrite not_elem_of_union, elem_of_singleton.
      destruct (decide (x = url)) as [->|Hne]; naive_solver.
Qed.

Lemma firstOccurrences_NoDup urls : forall seen : gset string,
  NoDup (firstOccurrences seen urls).
Proof.
  induction urls as [|url urls IH]; intros seen; simpl; [constructor|].
  case_bool_decide as Hseen; [apply IH|].
  apply NoDup_cons. split; [|apply IH].
  rewrite firstOccurrences_elem. set_solver.
Qed.

Lemma unknownMessages_NoDup urls :
  NoDup urls -> NoDup (List.map unknownMessage urls).
Proof.
  induction 1 as [|url urls Hnew _ IH]; simpl; constructor; [|done].
  intros Hin. apply list_elem_of_In, in_map_iff in Hin as (url' & Heq & Hin).
  apply unknownMessage_inj in Heq as ->. by apply Hnew, list_elem_of_In.
Qed.

Section SeenSet.
Variable fsReadFileAsync : string -> option string.
Variable _traceStorageDir : string.
Variable v : TraceViewer.
Variable snapshot : PageSnapshot.
Variable contextId : string.

Lemma replay_seen_from routes : forall st,
  unknownUrls (foldl (routeHandler fsReadFileAsync _traceStorageDir v snapshot contextId)
                     st routes)
  = unknownUrls st
    ∪ list_to_set (unmatchedUrls fsReadFileAsync _traceStorageDir v snapshot
                     contextId routes).
Proof.
  induction routes as [|route routes IH]; intros st; simpl.
  - unfold unmatchedUrls. simpl. set_solver.
  - rewrite IH. unfold unmatchedUrls. simpl.
    destruct (unmatched _ _ _ _ _ route) eqn:Hun.
    + destruct (routeHandler_unmatched fsReadFileAsync _traceStorageDir v snapshot
                  contextId st route Hun) as [-> _].
      unfold unknown. simpl. case_bool_decide; simpl; set_solver.
    + rewrite (routeHandler_matched fsReadFileAsync _traceStorageDir v snapshot
                 contextId st route Hun). simpl. set_solver.
Qed.

(** X16.  At the end of a replay the seen-set holds exactly the URLs of
    the requests handed to [unknown], the console holds no line twice,
    and it holds as many lines as the seen-set has URLs. *)
Theorem seen_set_of_replay (routes : list Request) :
  let final := replay fsReadFileAsync _traceStorageDir v snapshot contextId routes in
  unknownUrls final
  = list_to_set (unmatchedUrls fsReadFileAsync _traceStorageDir v snapshot
                   contextId routes)
  /\ NoDup (console final)
  /\ length (console final) = size (unknownUrls final).
Proof.
  intros final.
  assert (Hseen : unknownUrls final
                  = list_to_set (unmatchedUrls fsReadFileAsync _traceStorageDir v
                                   snapshot contextId routes)).
  { unfold final, replay. rewrite replay_seen_from. simpl. set_solver. }
  destruct (replay_from fsReadFileAsync _traceStorageDir v snapshot contextId routes
              initialReplayState) as [_ Hc].
  fold (replay fsReadFileAsync _traceStorageDir v snapshot contextId routes) in Hc.
  fold final in Hc. simpl in Hc.
  set (urls := unmatchedUrls fsReadFileAsync _traceStorageDir v snapshot contextId routes)
    in *.
  pose proof (firstOccurrences_NoDup urls ∅) as Hnd.
  split; [exact Hseen|]. split.
  - rewrite Hc. by apply unknownMessages_NoDup.
  - rewrite Hc, length_map, Hseen.
    assert (Hset : list_to_set urls
                   = (list_to_set (firstOccurrences ∅ urls) : gset string)).
    { apply set_eq. intros x. rewrite !elem_of_list_to_set, firstOccurrences_elem.
      set_solver. }
    rewrite Hset. symmetry. by apply size_list_to_set.
Qed.
End SeenSet.

(** ** The walk, frame by frame *)

Lemma endsWith_same s : endsWith s s = true.
Proof. unfold endsWith. by apply bool_decide_eq_true_2. Qed.

Lemma endsWith_empty s : endsWith s "" = true.
Proof. unfold endsWith. apply bool_decide_eq_true_2. apply suffix_nil. Qed.

Lemma recursedInto_elem snapshot url f :
  f ∈ recursedInto snapshot url <-> f ∈ frames snapshot /\ endsWith url (fs_url f) = true.
Proof. unfold recursedInto. by rewrite !list_elem_of_In, filter_In. Qed.

Lemma walk_unfold snapshot frameSnapshot frame :
  _postprocessSnapshotFrame snapshot frameSnapshot frame
  = flat_map
      (fun child =>
         WaitForLoadState (frame_url child) ::
         flat_map
           (fun childData =>
              if endsWith (frame_url child) (fs_url childData)
              then Recurse childData (frame_url child)
                   :: _postprocessSnapshotFrame snapshot childData child
              else [])
           (frames snapshot))
      (childFrames frame).
Proof. by destruct frame. Qed.

Lemma walk_child_events snapshot frameSnapshot frame child f ev :
  child ∈ childFrames frame ->
  f ∈ frames snapshot ->
  endsWith (frame_url child) (fs_url f) = true ->
  ev = Recurse f (frame_url child)
  \/ ev ∈ _postprocessSnapshotFrame snapshot f child ->
  ev ∈ _postprocessSnapshotFrame snapshot frameSnapshot frame.
Proof.
  intros Hchild Hf Hends Hev. rewrite walk_unfold.
  apply list_elem_of_In, in_flat_map. exists child.
  split; [by apply list_elem_of_In|]. right.
  apply in_flat_map. exists f. split; [by apply list_elem_of_In|].
  rewrite Hends. destruct Hev as [->|Hev]; [by left|].
  right. by apply list_elem_of_In.
Qed.

(** X17.  The walk waits for every child of the live frame.  For a child
    and a frame of the snapshot recorded with exactly the child's URL, or
    with an empty URL, the walk recurses: it enters that frame for the
    child and does, for the frames below the child, all that the walk of
    the child does.  When no recorded URL is a suffix of any child's URL,
    the walk only waits for the children, in order, and never for a frame
    below them. *)
Theorem walk_matches (snapshot : PageSnapshot) (frameSnapshot : FrameSnapshot)
    (frame : Frame) :
  (forall child,
      child ∈ childFrames frame ->
      WaitForLoadState (frame_url child)
        ∈ _postprocessSnapshotFrame snapshot frameSnapshot frame)
  /\ (forall child f,
        child ∈ childFrames frame ->
        f ∈ frames snapshot ->
        fs_url f = frame_url child \/ fs_url f = "" ->
        f ∈ recursedInto snapshot (frame_url child)
        /\ Recurse f (frame_url child)
             ∈ _postprocessSnapshotFrame snapshot frameSnapshot frame
        /\ forall ev,
             ev ∈ _postprocessSnapshotFrame snapshot f child ->
             ev ∈ _postprocessSnapshotFrame snapshot frameSnapshot frame)
  /\ (Forall (fun child => recursedInto snapshot (frame_url child) = [])
             (childFrames frame) ->
      _postprocessSnapshotFrame snapshot frameSnapshot frame
      = List.map (fun child => WaitForLoadState (frame_url child)) (childFrames frame)).
Proof.
  split; [|split].
  - intros child Hchild. rewrite walk_unfold.
    apply list_elem_of_In, in_flat_map. exists child.
    split; [by apply list_elem_of_In | by left].
  - intros child f Hchild Hf Hurl.
    assert (Hends : endsWith (frame_url child) (fs_url f) = true).
    { destruct Hurl as [->| ->]; [apply endsWith_same | apply endsWith_empty]. }
    split; [by apply recursedInto_elem|]. split.
    + apply (walk_child_events snapshot frameSnapshot frame child f); auto.
    + intros ev Hev.
      apply (walk_child_events snapshot frameSnapshot frame child f); auto.
  - rewrite walk_unfold. intros Hnone.
    induction Hnone as [|child children Hchild _ IH]; simpl; [done|].
    rewrite IH. f_equal. unfold recursedInto in Hchild.
    rewrite flat_map_if, Hchild. done.
Qed.

Lemma walk_matches_witness :
  Forall (fun child => recursedInto snapshotRootOnly (frame_url child) = [])
         (childFrames livePage)
  /\ _postprocessSnapshotFrame snapshotRootOnly rootFrame livePage
     = [WaitForLoadState "about:blank"]
  /\ Recurse blankA "about:blank"
       ∈ _postprocessSnapshotFrame snapshotBlanks rootFrame livePage
  /\ Recurse blankB "about:blank"
       ∈ _postprocessSnapshotFrame snapshotBlanks rootFrame livePage.
Proof.
  assert (Hnone : Forall (fun child => recursedInto snapshotRootOnly (frame_url child) = [])
                    (childFrames livePage)) by (repeat constructor).
  destruct (walk_matches snapshotRootOnly rootFrame livePage) as (_ & _ & Hskip).
  destruct (walk_matches snapshotBlanks rootFrame livePage) as (_ & Hin & _).
  assert (Hchild : {| frame_url := "about:blank"; childFrames := [] |}
                     ∈ childFrames livePage) by left.
  assert (HA : blankA ∈ frames snapshotBlanks) by (right; left).
  assert (HB : blankB ∈ frames snapshotBlanks) by (right; right; left).
  destruct (Hin _ blankA Hchild HA (or_introl eq_refl)) as (_ & HrA & _).
  destruct (Hin _ blankB Hchild HB (or_introl eq_refl)) as (_ & HrB & _).
  exact (conj Hnone (conj (Hskip Hnone) (conj HrA HrB))).
Defined.

(** ** Live contexts *)

(** X18.  A call of [_ensureContext] that returns leaves its context in
    the cache under the contextId, and the next call for that contextId
    returns the same context without creating any.  On a miss the
    context is created on the browser with the mobile flag and viewport
    recorded for the contextId, and nothing else is created; on a hit
    nothing changes.  A contextId with neither a cached context nor a
    context event makes the call throw, browser and cache unchanged. *)
Theorem ensureContext_cached (v : TraceViewer)
    (cache : gmap string BrowserContext) (browser : Browser) (contextId : string) :
  (forall cache' browser' context,
      _ensureContext v cache browser contextId = (cache', browser', Ok context) ->
      cache' !! contextId = Some context
      /\ _ensureContext v cache' browser' contextId = (cache', browser', Ok context)
      /\ (cache !! contextId = None ->
          exists event,
            _contextEventById v !! contextId = Some event
            /\ bc_options context = {| isMobile := cc_isMobile event;
                                       viewport := cc_viewportSize event |}
            /\ browser_contexts browser' = browser_contexts browser ++ [context]
            /\ cache' = <[ contextId := context ]> cache)
      /\ (is_Some (cache !! contextId) -> cache' = cache /\ browser' = browser))
  /\ (cache !! contextId = None -> _contextEventById v !! contextId = None ->
      _ensureContext v cache browser contextId = (cache, browser, Throw TypeError)).
Proof.
  split.
  - intros cache' browser' context. unfold _ensureContext at 1.
    destruct (cache !! contextId) as [c|] eqn:Hc.
    + intros [= <- <- <-]. split; [done|]. split; [|split].
      * unfold _ensureContext. by rewrite Hc.
      * done.
      * done.
    + destruct (_contextEventById v !! contextId) as [event|] eqn:He; [|done].
      intros [= <- <- <-]. split; [by rewrite lookup_insert_eq|]. split; [|split].
      * unfold _ensureContext. by rewrite lookup_insert_eq.
      * intros _. exists event. by repeat split.
      * by intros [? [=]].
  - intros Hc He. unfold _ensureContext. by rewrite Hc, He.
Qed.

Lemma ensureContext_cached_witness :
  let first := _ensureContext viewerTwoBrowsers ∅ chromium "c1" in
  exists context,
    first = (<[ "c1" := context ]> ∅,
             {| browser_name := "chromium"; browser_contexts := [context] |},
             Ok context)
    /\ bc_options context = {| isMobile := false; viewport := None |}
    /\ _ensureContext viewerTwoBrowsers first.1.1 first.1.2 "c1"
       = (first.1.1, first.1.2, Ok context)
    /\ _ensureContext viewerTwoBrowsers ∅ chromium "c9" = (∅, chromium, Throw TypeError).
Proof.
  intros first.
  set (context := {| bc_browser := "chromium"; bc_rank := 0;
                     bc_options := {| isMobile := false; viewport := None |} |}).
  assert (Hfirst : _ensureContext viewerTwoBrowsers ∅ chromium "c1"
                   = (<[ "c1" := context ]> ∅,
                      {| browser_name := "chromium"; browser_contexts := [context] |},
                      Ok context)) by reflexivity.
  destruct (ensureContext_cached viewerTwoBrowsers ∅ chromium "c1") as [Hok _].
  destruct (ensureContext_cached viewerTwoBrowsers ∅ chromium "c9") as [_ Hthrow].
  destruct (Hok _ _ _ Hfirst) as (_ & Hagain & _).
  exists context. split; [exact Hfirst|]. split; [reflexivity|].
  split; [exact Hagain | exact (Hthrow eq_refl eq_refl)].
Defined.

Lemma ensureContext_step v cache browser id :
  length (browser_contexts (_ensureContext v cache browser id).1.2) + size cache
  = length (browser_contexts browser) + size (_ensureContext v cache browser id).1.1
  /\ dom (_ensureContext v cache browser id).1.1
     = dom cache
       ∪ list_to_set (List.filter
                        (fun id => bool_decide (is_Some (_contextEventById v !! id)))
                        [id]).
Proof.
  unfold _ensureContext. simpl.
  destruct (cache !! id) as [c|] eqn:Hc; simpl.
  - split; [done|].
    assert (id ∈ dom cache) by (apply elem_of_dom; eauto).
    case_bool_decide; simpl; set_solver.
  - destruct (_contextEventById v !! id) as [event|] eqn:He; simpl.
    + rewrite length_app, map_size_insert_None by done. simpl.
      split; [lia|]. rewrite dom_insert_L. set_solver.
    + split; [done|]. set_solver.
Qed.

Lemma ensureContexts_from v contextIds : forall cache browser,
  length (browser_contexts (ensureContexts v cache browser contextIds).2) + size cache
  = length (browser_contexts browser)
    + size (ensureContexts v cache browser contextIds).1
  /\ dom (ensureContexts v cache browser contextIds).1
     = dom cache
       ∪ list_to_set (List.filter
                        (fun id => bool_decide (is_Some (_contextEventById v !! id)))
                        contextIds).
Proof.
  induction contextIds as [|id ids IH]; intros cache browser.
  - simpl. split; [lia | set_solver].
  - change (id :: ids) with ([id] ++ ids). rewrite List.filter_app, list_to_set_app_L.
    unfold ensureContexts in *. cbn [foldl app fst snd].
    destruct (ensureContext_step v cache browser id) as [Hlen1 Hdom1].
    destruct (_ensureContext v cache browser id) as [[cache1 browser1] r].
    cbn [fst snd] in *.
    destruct (IH cache1 browser1) as [Hlen Hdom].
    split; [lia|]. rewrite Hdom, Hdom1. set_solver.
Qed.

(** X19.  Over any run of calls made one after the other on one browser
    with an empty cache at the start, one context is created for each
    distinct contextId of the run that has a context event, however
    often the contextId comes up, and none for the others. *)
Theorem contexts_created_once (v : TraceViewer) (browser : Browser)
    (contextIds : list string) :
  let final := ensureContexts v ∅ browser contextIds in
  length (browser_contexts final.2)
  = length (browser_contexts browser) + size final.1
  /\ dom final.1
     = list_to_set (List.filter
                      (fun id => bool_decide (is_Some (_contextEventById v !! id)))
                      contextIds).
Proof.
  intros final.
  destruct (ensureContexts_from v contextIds ∅ browser) as [Hlen Hdom].
  fold final in Hlen, Hdom. rewrite map_size_empty in Hlen.
  split; [lia|]. rewrite Hdom, dom_empty_L. set_solver.
Qed.

(** ** Plain serialised URLs *)

Lemma afterPrefix_Some prefix : forall s rest,
  afterPrefix prefix s = Some rest -> s = prefix +:+ rest.
Proof.
  induction prefix as [|p prefix IH]; intros s rest; simpl.
  - by intros [= ->].
  - destruct s as [|c s]; [done|]. case_bool_decide as Hc; [|done].
    intros Hrest. rewrite append_cons, Hc. f_equal. by apply IH.
Qed.

Lemma isLower_not_hash c : isLower c = true -> bool_decide (c = "#"%char) = false.
Proof.
  intros Hc. apply bool_decide_eq_false_2. intros ->. by vm_compute in Hc.
Qed.

Lemma isSegmentChar_not_hash c :
  isSegmentChar c = true -> bool_decide (c = "#"%char) = false.
Proof.
  intros Hc. apply bool_decide_eq_false_2. intros ->. by vm_compute in Hc.
Qed.

Lemma afterPlainHost_afterHash s : forall labelOpen path,
  afterPlainHost labelOpen s = Some path -> afterHash s = afterHash path.
Proof.
  induction s as [|c s IH]; intros labelOpen path; simpl; [done|].
  destruct (isLower c) eqn:Hlower.
  - rewrite (isLower_not_hash c Hlower). apply IH.
  - destruct labelOpen; [done|].
    destruct (decide (c = "."%char)) as [->|Hdot].
    + simpl. apply IH.
    + rewrite (bool_decide_eq_false_2 _ Hdot).
      destruct (decide (c = "/"%char)) as [->|Hslash].
      * simpl. by intros [= ->].
      * by rewrite (bool_decide_eq_false_2 _ Hslash).
Qed.

Lemma plainPath_afterHash s : forall segment,
  plainPath segment s = true -> afterHash s = None.
Proof.
  induction s as [|c s IH]; intros segment; simpl; [done|].
  destruct (decide (c = "/"%char)) as [->|Hslash].
  - simpl. intros [_ Hrest]%andb_true_iff. by apply (IH "").
  - rewrite (bool_decide_eq_false_2 _ Hslash).
    destruct (isSegmentChar c) eqn:Hc; [|done].
    rewrite (isSegmentChar_not_hash c Hc). apply IH.
Qed.

Lemma plainHttpUrl_parses url :
  plainHttpUrl url = true -> hasScheme url = true /\ afterHash url = None.
Proof.
  unfold plainHttpUrl.
  destruct (afterPrefix "https://" url) as [rest|] eqn:Hs.
  - apply afterPrefix_Some in Hs as ->.
    destruct (afterPlainHost true rest) as [path|] eqn:Hhost; [|done].
    intros Hpath. split; [reflexivity|].
    change (afterHash ("https://" +:+ rest)) with (afterHash rest).
    rewrite (afterPlainHost_afterHash _ _ _ Hhost).
    by apply (plainPath_afterHash path "").
  - destruct (afterPrefix "http://" url) as [rest|] eqn:Hp; [|done].
    apply afterPrefix_Some in Hp as ->.
    destruct (afterPlainHost true rest) as [path|] eqn:Hhost; [|done].
    intros Hpath. split; [reflexivity|].
    change (afterHash ("http://" +:+ rest)) with (afterHash rest).
    rewrite (afterPlainHost_afterHash _ _ _ Hhost).
    by apply (plainPath_afterHash path "").
Qed.

(** ** From the trace file to the answer *)

Lemma match_spec_found contextId frameId l r :
  r ∈ l -> res_contextId r = contextId ->
  is_Some (match_spec contextId frameId l).
Proof.
  intros Hin Hctx. unfold match_spec.
  assert (Hr : r ∈ sameContext contextId l) by (by apply sameContext_elem).
  destruct (firstOfFrame frameId (sameContext contextId l)); [by eexists|].
  destruct (sameContext contextId l); [by apply elem_of_nil in Hr | by eexists].
Qed.

(** X20.  A Resource event read from a trace file under a serialised URL
    of the plain form (http or https, a host of lower-case letter labels,
    a path of plain segments, no port, query or fragment) answers the
    requests of its context for that URL, whatever fragment the request
    adds and whatever frame asks: matching finds a resource of that
    context recorded under that URL, and one recorded for the asking
    frame when the event itself was. *)
Theorem loaded_resource_is_matched (JSON_parse : string -> option TraceEvent)
    (v : TraceViewer) (traceFile traceContent : string) (v' : TraceViewer)
    (line : string) (e : NetworkResourceTraceEvent) :
  wellKeyed v ->
  load JSON_parse v traceFile traceContent = (v', Ok tt) ->
  line ∈ traceLines traceContent ->
  JSON_parse line = Some (Resource e) ->
  plainHttpUrl (res_url e) = true ->
  forall frag frameId,
    exists r,
      matchResource v' (res_contextId e) (res_url e +:+ "#" +:+ frag) frameId = Some r
      /\ res_contextId r = res_contextId e
      /\ res_url r = res_url e
      /\ (res_frameId e = frameId -> res_frameId r = frameId).
Proof.
  intros Hkeyed Hload Hline He [Hs Hh]%plainHttpUrl_parses frag frameId.
  pose proof (load_wellKeyed JSON_parse v traceFile traceContent Hkeyed) as Hkeyed'.
  rewrite Hload in Hkeyed'. simpl in Hkeyed'.
  apply load_Ok in Hload as (events & Hparse & ->).
  set (v' := pushTrace (indexEvents v events) traceFile events) in *.
  assert (Hcand : candidatesFor v' (res_url e +:+ "#" +:+ frag)
                  = default [] (_resourceEventsByUrl v' !! res_url e)).
  { unfold candidatesFor. by rewrite removeHash_fragment. }
  assert (Hin : e ∈ candidatesFor v' (res_url e +:+ "#" +:+ frag)).
  { rewrite Hcand. unfold v'. simpl. rewrite indexEvents_resources.
    apply elem_of_app. right. apply resourcesAt_elem.
    eapply parsed_event_elem; eauto using parseLines_Ok. }
  unfold matchResource. rewrite matchCandidates_spec.
  destruct (match_spec_found (res_contextId e) frameId _ e Hin eq_refl) as [r Hr].
  exists r. split; [exact Hr|].
  destruct (match_spec_context _ _ _ _ Hr) as [Hrin Hrctx].
  split; [exact Hrctx|]. split.
  - rewrite Hcand in Hrin. destruct Hkeyed' as [_ Hres].
    destruct (_resourceEventsByUrl v' !! res_url e) as [l|] eqn:Hl;
      [|by apply elem_of_nil in Hrin].
    destruct (Hres _ _ Hl) as [_ Hall]. simpl in Hrin.
    by apply (proj1 (Forall_forall _ _) Hall r).
  - intros Hframe. unfold match_spec in Hr.
    assert (He' : e ∈ sameContext (res_contextId e)
                        (candidatesFor v' (res_url e +:+ "#" +:+ frag)))
      by (by apply sameContext_elem).
    destruct (firstOfFrame frameId _) as [r'|] eqn:Hfind.
    + injection Hr as <-. unfold firstOfFrame in Hfind.
      apply find_some in Hfind as [_ Hf]. by apply bool_decide_eq_true_1 in Hf.
    + exfalso. unfold firstOfFrame in Hfind.
      apply list_elem_of_In in He'. apply (find_none _ _ Hfind e) in He'.
      by rewrite bool_decide_eq_true_2 in He'.
Qed.

Lemma loaded_resource_is_matched_witness :
  let v' := (load sample_parse viewer3 "trace1" trace_plain).1 in
  wellKeyed viewer3
  /\ load sample_parse viewer3 "trace1" trace_plain = (v', Ok tt)
  /\ plainHttpUrl (res_url resPlain) = true
  /\ exists r,
       matchResource v' "c1" "https://x/y#v2" "no-such-frame" = Some r
       /\ res_contextId r = "c1"
       /\ res_url r = "https://x/y"
       /\ (res_frameId resPlain = "no-such-frame" -> res_frameId r = "no-such-frame").
Proof.
  intros v'.
  assert (Hkeyed : wellKeyed viewer3).
  { apply (indexEvents_wellKeyed _ newTraceViewer). split; intros ? ? [=]. }
  assert (Hload : load sample_parse viewer3 "trace1" trace_plain = (v', Ok tt))
    by (vm_compute; reflexivity).
  assert (Hline : line_resPlain ∈ traceLines trace_plain) by (vm_compute; left).
  split; [exact Hkeyed|]. split; [exact Hload|]. split; [reflexivity|].
  exact (loaded_resource_is_matched sample_parse viewer3 "trace1" trace_plain v'
           line_resPlain resPlain Hkeyed Hload Hline eq_refl eq_refl
           "v2" "no-such-frame").
Defined.
